(** * mist-cli: the [ssh] session command and the metering diff

    A shallow embedding of [src/main.go]:
    - [GoStrings]: [strings.HasPrefix] / [strings.HasSuffix] on byte strings;
    - [GoTime]: [time.Duration] arithmetic (signed 64-bit nanoseconds);
    - [Http]: headers with canonical keys, requests, responses;
    - [Ssh]: the [Run] closure of [sshCmd] as a program in a small
      state-and-control monad that records every external call in a trace
      and keeps Go's stack of deferred calls;
    - [Metering]: [calculateDiffs] over a store of shared inner maps;
    - [Resources]: the resource types and the [get] command;
    - [MeteringData]: the loop of [getMeteringData] and the calls of
      [meteringCmd];
    - [MeteringTable]: [formatMeteringData]. *)

From Stdlib Require Import ZArith Lia List Ascii String Bool DecimalString.
From stdpp Require Import base option list strings gmap.
From stdpp Require Import sorting.

Local Open Scope Z_scope.
Local Open Scope string_scope.

(** ** Go's [strings] package *)
Module GoStrings.

(** [s[i:i+n]] for byte strings; [String.substring] with Go's argument order
    kept at the call sites. *)
Definition len (s : string) : nat := String.length s.

(** [func HasPrefix(s, prefix string) bool {
       return len(s) >= len(prefix) && s[:len(prefix)] == prefix }] *)
Definition HasPrefix (s prefix : string) : bool :=
  (len prefix <=? len s)%nat && String.eqb (substring 0 (len prefix) s) prefix.

(** [func HasSuffix(s, suffix string) bool {
       return len(s) >= len(suffix) && s[len(s)-len(suffix):] == suffix }] *)
Definition HasSuffix (s suffix : string) : bool :=
  (len suffix <=? len s)%nat &&
  String.eqb (substring (len s - len suffix) (len suffix) s) suffix.

Lemma len_app (s t : string) : len (s ++ t) = (len s + len t)%nat.
Proof.
  unfold len. induction s as [|a s IH]; simpl; [reflexivity|].
  now rewrite IH.
Qed.

Lemma substring_all (s : string) : substring 0 (len s) s = s.
Proof.
  unfold len. induction s as [|a s IH]; simpl; [reflexivity|].
  now rewrite IH.
Qed.

(** Skipping a whole left operand of a concatenation. *)
Lemma substring_skip_app (p t : string) (n : nat) :
  substring (len p) n (p ++ t) = substring 0 n t.
Proof.
  unfold len. induction p as [|a p IH]; simpl; [reflexivity|exact IH].
Qed.

Lemma substring_shift_app (p t : string) (k n : nat) :
  substring (len p + k) n (p ++ t) = substring k n t.
Proof.
  unfold len. induction p as [|a p IH]; simpl; [reflexivity|exact IH].
Qed.

Lemma HasSuffix_app_self (s suffix : string) :
  HasSuffix (s ++ suffix) suffix = true.
Proof.
  unfold HasSuffix. rewrite len_app.
  apply andb_true_intro; split.
  - apply Nat.leb_le. lia.
  - replace (len s + len suffix - len suffix)%nat with (len s) by lia.
    rewrite substring_skip_app, substring_all. apply String.eqb_refl.
Qed.

Lemma HasSuffix_app_l (p s suffix : string) :
  HasSuffix s suffix = true -> HasSuffix (p ++ s) suffix = true.
Proof.
  unfold HasSuffix. rewrite len_app.
  intros H. apply andb_prop in H as [Hl He].
  apply Nat.leb_le in Hl.
  apply andb_true_intro; split.
  - apply Nat.leb_le. lia.
  - replace (len p + len s - len suffix)%nat
      with (len p + (len s - len suffix))%nat by lia.
    now rewrite substring_shift_app.
Qed.

Lemma HasPrefix_app_self (prefix s : string) :
  HasPrefix (prefix ++ s) prefix = true.
Proof.
  unfold HasPrefix. rewrite len_app.
  apply andb_true_intro; split.
  - apply Nat.leb_le. lia.
  - assert (E : substring 0 (len prefix) (prefix ++ s) = prefix).
    { unfold len. induction prefix as [|a p IH]; simpl.
      - now destruct s.
      - now rewrite IH. }
    rewrite E. apply String.eqb_refl.
Qed.

End GoStrings.

(** ** Go's [time.Duration]: a signed 64-bit count of nanoseconds *)
Module GoTime.

Definition Duration := Z.

Definition wrap64 (z : Z) : Z := (z + 2 ^ 63) mod 2 ^ 64 - 2 ^ 63.

(** [*] and [/] on [int64]: the product wraps, the quotient truncates
    towards zero. *)
Definition mul (a b : Duration) : Duration := wrap64 (a * b).
Definition div (a b : Duration) : Duration := wrap64 (Z.quot a b).

Definition Nanosecond : Duration := 1.
Definition Microsecond : Duration := mul 1000 Nanosecond.
Definition Millisecond : Duration := mul 1000 Microsecond.
Definition Second : Duration := mul 1000 Millisecond.

End GoTime.

(** ** [net/http]: headers, requests, responses *)
Module Http.

(** Values of Go's [error] interface are identified with their message;
    [None] is [nil]. *)
Definition Error := string.

Definition byte_in (lo hi c : ascii) : bool :=
  (N.leb (N_of_ascii lo) (N_of_ascii c)) && (N.leb (N_of_ascii c) (N_of_ascii hi)).

(** [textproto.validHeaderFieldByte]: the token characters of RFC 7230. *)
Definition validHeaderFieldByte (c : ascii) : bool :=
  byte_in "a" "z" c || byte_in "A" "Z" c || byte_in "0" "9" c ||
  existsb (Ascii.eqb c)
    ["!"; "#"; "$"; "%"; "&"; "'"; "*"; "+"; "-"; "."; "^"; "_"; "`"; "|"; "~"]%char.

Definition toUpper (c : ascii) : ascii :=
  if byte_in "a" "z" c then ascii_of_N (N_of_ascii c - 32) else c.
Definition toLower (c : ascii) : ascii :=
  if byte_in "A" "Z" c then ascii_of_N (N_of_ascii c + 32) else c.

Fixpoint all_bytes (p : ascii -> bool) (s : string) : bool :=
  match s with
  | EmptyString => true
  | String c s' => p c && all_bytes p s'
  end.

(** The capitalisation loop of [textproto.canonicalMIMEHeaderKey]: upper case
    at the start and after each dash, lower case elsewhere. *)
Fixpoint canon (upper : bool) (s : string) : string :=
  match s with
  | EmptyString => EmptyString
  | String c s' =>
      let c' := if upper then toUpper c else toLower c in
      String c' (canon (Ascii.eqb c' "-") s')
  end.

(** [textproto.CanonicalMIMEHeaderKey]: a key holding a byte that is not a
    header field byte is returned unchanged. *)
Definition CanonicalMIMEHeaderKey (s : string) : string :=
  if all_bytes validHeaderFieldByte s then canon true s else s.

(** [type Header map[string][]string] *)
Abbreviation Header := (gmap string (list string)).

(** [func (h Header) Get(key string) string]: the first value under the
    canonical form of [key], the empty string when there is none. *)
Definition Get (h : Header) (key : string) : string :=
  match h !! CanonicalMIMEHeaderKey key with
  | Some (v :: _) => v
  | _ => EmptyString
  end.

(** [func (h Header) Add(key, value string)] *)
Definition Add (h : Header) (key value : string) : Header :=
  let k := CanonicalMIMEHeaderKey key in
  <[k := (default [] (h !! k) ++ [value])%list]> h.

Record Request := mkRequest {
  Method : string;
  URL : string;
  ReqHeader : Header;
  Body : option string
}.

(** A response as the command reads it: status, headers, and the URL of the
    request that produced it ([resp.Request.URL], used by [Location]). *)
Record Response := mkResponse {
  StatusCode : Z;
  RespHeader : Header;
  RequestURL : string
}.

Definition ErrUseLastResponse : Error := "net/http: use last response".
Definition ErrNoLocation : Error := "http: no Location header in response".

(** [http.Client], reduced to the one field the command sets. *)
Record Client := mkClient {
  CheckRedirect : Request -> list Request -> Error
}.

(** [resp.Location()], a URL pointer and an error: [ErrNoLocation] when
    the header is absent, otherwise the header value resolved against the
    request URL.  URLs are kept in their string form; [resolve] is
    [url.URL.Parse], which fails on a malformed reference. *)
Definition Location (resolve : string -> string -> string + Error)
    (r : Response) : option string * option Error :=
  let lv := Get (RespHeader r) "Location" in
  if String.eqb lv EmptyString then (None, Some ErrNoLocation)
  else match resolve (RequestURL r) lv with
       | inl u => (Some u, None)
       | inr e => (None, Some e)
       end.

End Http.

(** ** The [ssh] command *)
Module Ssh.
Import GoStrings GoTime Http.

(** *** What the command talks to *)

(** A [*websocket.Conn], by identity. *)
Definition Conn := nat.

(** Frames on the socket: the control frames and opaque terminal data. *)
Inductive Frame :=
| Resize (columns rows : Z)
| Ping
| Pong
| Data (payload : string).

(** The four goroutines of the session with the arguments of their [go]
    statements (the shared [&done] and [&writeMutex] are one object each). *)
Inductive GoCall :=
| handleTerminalResize (c : Conn) (writeWait : Duration)
| readFromRemoteStdout (c : Conn) (pongWait : Duration)
| writeToRemoteStdin (c : Conn) (writeWait : Duration)
| sendPingMessages (c : Conn) (writeWait pingPeriod : Duration).

Inductive Task := ResizeWatcher | InboundPump | OutboundPump | KeepAlive.

(** Modelled from the spec: the bodies of the four goroutines are not in
    [main.go].  The spec has them write frames under the shared lock, read
    frames, copy terminal bytes, and fire the shutdown signal on a fatal
    condition; a step of a task is one of these. *)
Inductive TaskStep :=
| TSockWrite (f : Frame)
| TSockRead
| TStdin
| TStdout (payload : string)
| TFire.

Definition is_fire (a : TaskStep) : bool :=
  match a with TFire => true | _ => false end.

(** [websocket.Dialer.Dial] returns a connection, a response and an error:
    a connection with the 101 response, or the handshake response with
    [ErrBadHandshake], or an error alone. *)
Inductive DialResult :=
| DialOK (c : Conn) (resp : Response)
| DialBadHandshake (resp : Response)
| DialFailed (e : Error).

Definition ErrBadHandshake : Error := "websocket: bad handshake".

Definition dial_triple (d : DialResult)
  : option Conn * option Response * option Error :=
  match d with
  | DialOK c r => (Some c, Some r, None)
  | DialBadHandshake r => (None, Some r, Some ErrBadHandshake)
  | DialFailed e => (None, None, Some e)
  end.

(** Every outcome of the outside world the command depends on.  [dial] takes
    the number of earlier dials, so that a second dial may answer
    differently from the first. *)
Record Env := mkEnv {
  setMistContext : option Error;
  getServer : string * option Error;
  getToken : string * option Error;
  parseURL : string -> option Error;
  clientDo : Client -> Request -> Response + Error;
  readAll : Response -> option Error;
  dial : nat -> string -> Header -> DialResult;
  resolve : string -> string -> string + Error;
  consoleCurrent : option Error;
  setRaw : option Error;
  terminalSize : Z * Z;
  resizeWrite : option Error;
  schedule : list (Task * TaskStep)
}.

Inductive TermMode := Cooked | Raw.

Inductive Event :=
| EPrint (s : string)
| EDo (cl : Client) (req : Request)
| EReadAll
| EBodyClose
| EDial (url : string) (h : Header)
| EConnClose (c : Conn)
| ECurrent
| ESetRaw
| ENewTerminal
| EReset
| ESockWrite (c : Conn) (deadline : Duration) (f : Frame)
| EGo (g : GoCall)
| ETask (t : Task) (a : TaskStep)
| ERecvDone.

(** Calls registered by [defer]. *)
Inductive Deferred :=
| DBodyClose
| DConnClose (c : Conn)
| DReset.

(** *** The monad: state, early [return], [panic], and blocking forever *)

Record St := mkSt {
  trace : list Event;
  defers : list Deferred;
  term : TermMode;
  saved : TermMode
}.

Inductive Ctl (A : Type) :=
| Next (a : A)
| Return
| Panicked (e : Error)
| Blocked.
Arguments Next {A} a.
Arguments Return {A}.
Arguments Panicked {A} e.
Arguments Blocked {A}.

Definition M (A : Type) := St -> Ctl A * St.

Definition ret {A} (a : A) : M A := fun s => (Next a, s).

Definition bind {A B} (m : M A) (f : A -> M B) : M B :=
  fun s =>
    match m s with
    | (Next a, s') => f a s'
    | (Return, s') => (Return, s')
    | (Panicked e, s') => (Panicked e, s')
    | (Blocked, s') => (Blocked, s')
    end.

Declare Scope go_scope.
Delimit Scope go_scope with go.
Notation "x <- m ;; k" := (bind m (fun x => k))
  (at level 100, m at next level, right associativity) : go_scope.
Notation "m ;; k" := (bind m (fun _ => k))
  (at level 100, right associativity) : go_scope.
Local Open Scope go_scope.

Definition emit (e : Event) : M unit :=
  fun s => (Next tt, mkSt (trace s ++ [e]) (defers s) (term s) (saved s)).

Definition defer (d : Deferred) : M unit :=
  fun s => (Next tt, mkSt (trace s) (d :: defers s) (term s) (saved s)).

Definition return_ {A} : M A := fun s => (Return, s).
Definition panic {A} (e : Error) : M A := fun s => (Panicked e, s).

Definition nl : string := String (ascii_of_nat 10) EmptyString.

Definition nilDeref : Error :=
  "runtime error: invalid memory address or nil pointer dereference".

(** [fmt.Println(err)] *)
Definition Println (e : Error) : M unit := emit (EPrint (e ++ nl)).

(** [if err != nil { fmt.Println(err); return }] *)
Definition check (err : option Error) : M unit :=
  match err with
  | Some e => Println e ;; return_
  | None => ret tt
  end.

(** *** External calls *)

(** [http.NewRequest(method, url, body)]: fails when the URL does not
    parse, and then the request pointer is nil. *)
Definition NewRequest (env : Env) (method url : string) (body : option string)
  : option Request * option Error :=
  match parseURL env url with
  | None => (Some (mkRequest method url ∅ body), None)
  | Some e => (None, Some e)
  end.

Definition Do (env : Env) (cl : Client) (req : Request) : M (Response + Error) :=
  emit (EDo cl req) ;; ret (clientDo env cl req).

(** [ioutil.ReadAll(resp.Body)]; the bytes read are dropped by the caller. *)
Definition ReadAll (env : Env) (resp : Response) : M (option Error) :=
  emit EReadAll ;; ret (readAll env resp).

Definition dials (tr : list Event) : list (string * Header) :=
  omap (fun e => match e with EDial u h => Some (u, h) | _ => None end) tr.

(** [websocket.DefaultDialer.Dial(url, header)] *)
Definition Dial (env : Env) (url : string) (h : Header)
  : M (option Conn * option Response * option Error) :=
  fun s =>
    let n := length (dials (trace s)) in
    (emit (EDial url h) ;; ret (dial_triple (dial env n url h))) s.

(** [console.Current()] panics when no standard stream is a console; the
    console it returns remembers the mode the terminal is in. *)
Definition Current (env : Env) : M unit :=
  emit ECurrent ;;
  match consoleCurrent env with
  | Some e => panic e
  | None => fun s => (Next tt, mkSt (trace s) (defers s) (term s) (term s))
  end.

(** [current.SetRaw()] *)
Definition SetRaw (env : Env) : M (option Error) :=
  emit ESetRaw ;;
  match setRaw env with
  | Some e => ret (Some e)
  | None => fun s => (Next None, mkSt (trace s) (defers s) Raw (saved s))
  end.

(** [current.Reset()] puts back the mode the console remembered. *)
Definition Reset (s : St) : St :=
  mkSt (trace s ++ [EReset]) (defers s) (saved s) (saved s).

(** Modelled from the spec: [updateTerminalSize] is not in [main.go].  Per
    the spec it samples the terminal geometry and writes one Resize frame
    with it to the socket, under the write lock and the write deadline; the
    error of that write is its result. *)
Definition updateTerminalSize (env : Env) (c : Conn) (writeWait : Duration)
  : M (option Error) :=
  let '(columns, rows) := terminalSize env in
  emit (ESockWrite c writeWait (Resize columns rows)) ;;
  ret (resizeWrite env).

(** Modelled from the spec: what the goroutines do until the first of them
    fires the shutdown signal, in the order the scheduler ran them. *)
Fixpoint until_fire (sch : list (Task * TaskStep)) : list Event * bool :=
  match sch with
  | [] => ([], false)
  | (t, a) :: rest =>
      if is_fire a then ([ETask t a], true)
      else let '(es, fired) := until_fire rest in (ETask t a :: es, fired)
  end.

(** [<-done]: the main goroutine sleeps while the tasks run and wakes at the
    first firing; with no firing it never wakes. *)
Definition recvDone (env : Env) : M unit :=
  fun s =>
    let '(es, fired) := until_fire (schedule env) in
    if fired
    then (Next tt, mkSt (trace s ++ es ++ [ERecvDone]) (defers s) (term s) (saved s))
    else (Blocked, mkSt (trace s ++ es) (defers s) (term s) (saved s)).

(** *** The [Run] closure of [sshCmd], in three phases *)

Definition writeWait : Duration := mul 2 Second.
Definition pongWait : Duration := mul 10 Second.
Definition pingPeriod : Duration := div (mul pongWait 9) 10.

(** The server address with a trailing slash and a scheme (lines 108-113). *)
Definition normalizeServer (server : string) : string :=
  let server := if negb (HasSuffix server "/") then server ++ "/" else server in
  let server := if negb (HasPrefix server "http") then "http://" ++ server else server in
  server.

Definition sshPath (server machine : string) : string :=
  normalizeServer server ++ "api/v2/machines/" ++ machine ++ "/actions/ssh".

Definition sshClient : Client :=
  mkClient (fun _ _ => ErrUseLastResponse).

Definition authHeader (token : string) : Header :=
  {[ "Authorization" := [token] ]}.

(** Lines 98-141: the session request; yields the token and the location. *)
Definition launch (env : Env) (machine : string) : M (string * string) :=
  match setMistContext env with
  | Some e => emit (EPrint ("Cannot set context " ++ e ++ nl)) ;; return_
  | None => ret tt
  end ;;
  let '(server, err) := getServer env in
  check err ;;
  let path := sshPath server machine in
  let client := sshClient in
  let '(req, err) := NewRequest env "POST" path None in
  let '(token, err) := getToken env in
  check err ;;
  req <- match req with
         | Some r => ret (mkRequest (Method r) (URL r)
                            (Add (ReqHeader r) "Authorization" token) (Body r))
         | None => panic nilDeref
         end ;;
  check err ;;
  r <- Do env client req ;;
  match r with
  | inr e => Println e ;; return_
  | inl resp =>
      defer DBodyClose ;;
      err <- ReadAll env resp ;;
      check err ;;
      ret (token, Get (RespHeader resp) "location")
  end.

(** Lines 142-154: the upgrade, with its one retry. *)
Definition upgrade (env : Env) (token location : string) : M Conn :=
  d <- Dial env location (authHeader token) ;;
  let '(c, resp, err) := d in
  d <- match resp with
       | Some r =>
           if Z.eqb (StatusCode r) 302 then
             let '(u, _) := Location (resolve env) r in
             match u with
             | Some us => Dial env us (authHeader token)
             | None => panic nilDeref
             end
           else ret (c, resp, err)
       | None => ret (c, resp, err)
       end ;;
  let '(c, resp, err) := d in
  check err ;;
  match c with
  | Some conn =>
      defer (DConnClose conn) ;;
      match err with Some e => Println e | None => ret tt end ;;
      ret conn
  | None => panic nilDeref
  end.

(** Lines 156-177: raw mode, the first resize, the goroutines, the wait. *)
Definition session (env : Env) (c : Conn) : M unit :=
  Current env ;;
  err <- SetRaw env ;;
  match err with Some e => panic e | None => ret tt end ;;
  emit ENewTerminal ;;
  defer DReset ;;
  err <- updateTerminalSize env c writeWait ;;
  check err ;;
  emit (EGo (handleTerminalResize c writeWait)) ;;
  emit (EGo (readFromRemoteStdout c pongWait)) ;;
  emit (EGo (writeToRemoteStdin c writeWait)) ;;
  emit (EGo (sendPingMessages c writeWait pingPeriod)) ;;
  recvDone env.

Definition Run (env : Env) (machine : string) : M unit :=
  tl <- launch env machine ;;
  let '(token, location) := tl in
  c <- upgrade env token location ;;
  session env c.

(** *** Leaving the function: deferred calls run last-in first-out *)

Definition runDeferred (s : St) (d : Deferred) : St :=
  match d with
  | DBodyClose => mkSt (trace s ++ [EBodyClose]) (defers s) (term s) (saved s)
  | DConnClose c => mkSt (trace s ++ [EConnClose c]) (defers s) (term s) (saved s)
  | DReset => Reset s
  end.

Definition runDefers (s : St) : St :=
  fold_left runDeferred (defers s) (mkSt (trace s) [] (term s) (saved s)).

Inductive Outcome :=
| Returned
| Crashed (e : Error)
| Waiting.

(** How the function is left: on a return or a panic the deferred calls run;
    a goroutine blocked for ever leaves nothing. *)
Definition leave {A} (r : Ctl A * St) : Outcome * St :=
  match r with
  | (Blocked, s) => (Waiting, s)
  | (Panicked e, s) => (Crashed e, runDefers s)
  | (_, s) => (Returned, runDefers s)
  end.

(** Nothing has happened and nothing is deferred; the terminal is in mode
    [m0]. *)
Definition init (m0 : TermMode) : St := mkSt [] [] m0 m0.

(** The command on a terminal in mode [m0]. *)
Definition sshCmd (env : Env) (machine : string) (m0 : TermMode) : Outcome * St :=
  leave (Run env machine (init m0)).

Definition is_ESetRaw (e : Event) : bool :=
  match e with ESetRaw => true | _ => false end.
Definition is_EReset (e : Event) : bool :=
  match e with EReset => true | _ => false end.
Definition is_socket_write (e : Event) : bool :=
  match e with
  | ESockWrite _ _ _ | ETask _ (TSockWrite _) => true
  | _ => false
  end.
Definition is_EGo (e : Event) : bool :=
  match e with EGo _ => true | _ => false end.
Definition is_ETask (e : Event) : bool :=
  match e with ETask _ _ => true | _ => false end.

(** *** Vocabulary for the statements *)

(** The request of line 119 with the header of line 125. *)
Definition sshRequest (server machine token : string) : Request :=
  mkRequest "POST" (sshPath server machine) (authHeader token) None.

(** The session request to [server] went through: the command reaches the
    upgrade with [token] and [location]. *)
Definition launched (env : Env) (machine server token location : string)
  : Prop :=
  ∃ resp,
    setMistContext env = None ∧
    getServer env = (server, None) ∧
    parseURL env (sshPath server machine) = None ∧
    getToken env = (token, None) ∧
    clientDo env sshClient (sshRequest server machine token) = inl resp ∧
    readAll env resp = None ∧
    location = Get (RespHeader resp) "location".

(** The response and the error of a dial result. *)
Definition dial_resp (d : DialResult) : option Response :=
  snd (fst (dial_triple d)).
Definition dial_err (d : DialResult) : option Error :=
  snd (dial_triple d).

(** The dial whose result decides the upgrade, with the URLs dialled up to
    it: the first dial when its response is not a 302, the second when the
    first response is a 302 with a location that resolves. *)
Inductive last_dial (env : Env) (token location : string)
  : list string -> DialResult -> Prop :=
| first_dial :
    (∀ r, dial_resp (dial env 0 location (authHeader token)) = Some r →
          StatusCode r ≠ 302) →
    last_dial env token location [location]
      (dial env 0 location (authHeader token))
| second_dial r1 u e1 :
    dial_resp (dial env 0 location (authHeader token)) = Some r1 →
    StatusCode r1 = 302 →
    Location (resolve env) r1 = (Some u, e1) →
    last_dial env token location [location; u]
      (dial env 1 u (authHeader token)).

(** [s] after the events [es] and with [ds] deferred on top. *)
Definition push (s : St) (es : list Event) (ds : list Deferred) : St :=
  mkSt (trace s ++ es) (ds ++ defers s) (term s) (saved s).

(** Lines 147-151 on the result [d] of the last dial. *)
Definition finish_dial (d : DialResult) (s : St) : Ctl Conn * St :=
  match d with
  | DialOK c _ => (Next c, push s [] [DConnClose c])
  | DialBadHandshake _ => (Return, push s [EPrint (ErrBadHandshake ++ nl)] [])
  | DialFailed e => (Return, push s [EPrint (e ++ nl)] [])
  end.

(** The four [go] statements, lines 172-175. *)
Definition goes (c : Conn) : list Event :=
  [EGo (handleTerminalResize c writeWait);
   EGo (readFromRemoteStdout c pongWait);
   EGo (writeToRemoteStdin c writeWait);
   EGo (sendPingMessages c writeWait pingPeriod)].

(** The state once raw mode is on and the first resize has been written. *)
Definition sized (env : Env) (c : Conn) (s : St) : St :=
  mkSt (trace s ++ [ECurrent; ESetRaw; ENewTerminal;
                    ESockWrite c writeWait
                      (Resize (fst (terminalSize env)) (snd (terminalSize env)))])
       (DReset :: defers s) Raw (term s).

(** The first write on the socket (line 166) and the calls deferred by the
    session, in the order they run. *)
Definition first_resize (env : Env) (c : Conn) : Event :=
  ESockWrite c writeWait
    (Resize (fst (terminalSize env)) (snd (terminalSize env))).

Definition teardown (c : Conn) : list Event :=
  [EReset; EConnClose c; EBodyClose].

(** How the command ends once it has the connection [c], after the events
    [es], on a terminal that was in mode [m0]: the five ways through lines
    156-177 written out. *)
Definition session_end (env : Env) (c : Conn) (es : list Event) (m0 : TermMode)
  : Outcome * St :=
  match consoleCurrent env with
  | Some e =>
      (Crashed e, mkSt (es ++ [ECurrent; EConnClose c; EBodyClose]) [] m0 m0)
  | None =>
    match setRaw env with
    | Some e =>
        (Crashed e,
         mkSt (es ++ [ECurrent; ESetRaw; EConnClose c; EBodyClose]) [] m0 m0)
    | None =>
      match resizeWrite env with
      | Some e =>
          (Returned,
           mkSt (es ++ [ECurrent; ESetRaw; ENewTerminal; first_resize env c;
                        EPrint (e ++ nl)] ++ teardown c) [] m0 m0)
      | None =>
          if snd (until_fire (schedule env))
          then (Returned,
                mkSt (es ++ [ECurrent; ESetRaw; ENewTerminal; first_resize env c]
                         ++ goes c ++ fst (until_fire (schedule env))
                         ++ ERecvDone :: teardown c) [] m0 m0)
          else (Waiting,
                mkSt (es ++ [ECurrent; ESetRaw; ENewTerminal; first_resize env c]
                         ++ goes c ++ fst (until_fire (schedule env)))
                     [DReset; DConnClose c; DBodyClose] Raw m0)
      end
    end
  end.

(** No socket write, no goroutine, no task step. *)
Definition calm (tr : list Event) : Prop :=
  existsb is_socket_write tr = false ∧
  existsb is_EGo tr = false ∧
  existsb is_ETask tr = false.

(** A status of the redirection class. *)
Definition is_redirect (r : Response) : Prop :=
  300 <= StatusCode r < 400.

(** The reading under which any redirect answer to the upgrade is followed:
    a second dial, to some address, with the same header. *)
Definition follows_redirects (env : Env) (machine : string) : Prop :=
  ∀ server token location r1,
    launched env machine server token location →
    dial_resp (dial env 0 location (authHeader token)) = Some r1 →
    is_redirect r1 →
    ∃ u, dials (trace (snd (sshCmd env machine Cooked))) =
           [(location, authHeader token); (u, authHeader token)].

(** Events of the phases before the session. *)
Definition is_pre_event (e : Event) : bool :=
  match e with
  | EPrint _ | EDo _ _ | EReadAll | EDial _ _ => true
  | _ => false
  end.

Definition deferred_event (d : Deferred) : Event :=
  match d with
  | DBodyClose => EBodyClose
  | DConnClose c => EConnClose c
  | DReset => EReset
  end.

Definition is_DReset (d : Deferred) : bool :=
  match d with DReset => true | _ => false end.

Definition prints (tr : list Event) : list string :=
  omap (fun e => match e with EPrint s => Some s | _ => None end) tr.

(** Events that touch the terminal. *)
Definition is_terminal_event (e : Event) : bool :=
  match e with
  | ECurrent | ESetRaw | ENewTerminal | EReset => true
  | _ => false
  end.

End Ssh.

(** ** Worlds to run the command in *)
Module Scenario.
Import Http Ssh.

(** The answer to the session request: a redirect naming the endpoint. *)
Definition handshake : Response :=
  mkResponse 302 {[ "Location" := ["ws://mist.io/ws/1"] ]}
    "http://mist.io/api/v2/machines/m1/actions/ssh".

(** A handshake response that names another endpoint. *)
Definition moved (status : Z) (url : string) : Response :=
  mkResponse status {[ "Location" := ["ws://mist.io/ws/2"] ]} url.

Definition switching (url : string) : Response := mkResponse 101 ∅ url.

(** The socket opens at the first dial. *)
Definition dial_direct (n : nat) (url : string) (h : Header) : DialResult :=
  DialOK 1%nat (switching url).

(** The first dial is answered with [status] and a location, the next one
    opens the socket. *)
Definition dial_moved_once (status : Z) (n : nat) (url : string) (h : Header)
  : DialResult :=
  match n with
  | O => DialBadHandshake (moved status url)
  | S _ => DialOK 1%nat (switching url)
  end.

(** Every dial is answered with a 302. *)
Definition dial_moved_always (n : nat) (url : string) (h : Header) : DialResult :=
  DialBadHandshake (moved 302 url).

(** The first dial is answered with a 302 that names no location. *)
Definition dial_moved_nowhere (n : nat) (url : string) (h : Header) : DialResult :=
  DialBadHandshake (mkResponse 302 ∅ url).

(** A session: a ping, some output, a keystroke, then the remote side closes
    and both pumps fire. *)
Definition remote_close : list (Task * TaskStep) :=
  [(KeepAlive, TSockWrite Ping);
   (InboundPump, TSockRead);
   (InboundPump, TStdout "$ ");
   (OutboundPump, TStdin);
   (OutboundPump, TSockWrite (Data "l"));
   (InboundPump, TSockRead);
   (InboundPump, TFire);
   (OutboundPump, TFire)].

Definition world (token : string * option Error)
    (dialf : nat -> string -> Header -> DialResult)
    (write : option Error) (sch : list (Task * TaskStep)) : Env :=
  mkEnv None ("mist.io", None) token (fun _ => None)
    (fun _ _ => inl handshake) (fun _ => None)
    dialf (fun _ ref => inl ref)
    None None (80, 24) write sch.

End Scenario.

(** ** The metering diff *)
Module Metering.
Import Http.

(** Go maps are references.  [calculateDiffs] never writes to the two outer
    maps, only to the inner maps reached through [machineMetricsEnd]; so an
    outer map is kept as the references it holds, and the inner maps live in
    a store where two references may name the same map. *)
Abbreviation loc := positive.
Abbreviation Inner := (gmap string string).
Abbreviation Outer := (gmap string loc).
Abbreviation Store := (gmap loc Inner).

(** The value of [outer[machineId][metric]] and whether it is present; a
    reference to no map (a nil map) reads as empty. *)
Definition cell (σ : Store) (l : loc) (metric : string) : option string :=
  σ !! l ≫= (.!! metric).

(** What the function leaves behind: the store and what it printed. *)
Definition World := (Store * list string)%type.

Section Diffs.

(** [strconv.ParseFloat(s, 64)], the subtraction of [float64], and
    [fmt.Sprintf] with the verb [%f]. *)
Variable F : Type.
Variable ParseFloat : string -> F + Error.
Variable fsub : F -> F -> F.
Variable formatF : F -> string.

Variables machineMetricsStart machineMetricsEnd : Outer.
Variable metricsSet : gmap string string.

(** One turn of the inner loop, lines 281-301, at [machineId] and [metric];
    [valueEnd] is read when the iteration reaches the key. *)
Definition visit (w : World) (machineId metric : string) : World :=
  let '(σ, out) := w in
  match machineMetricsEnd !! machineId with
  | None => w
  | Some l =>
    match cell σ l metric with
    | None => w
    | Some valueEnd =>
      if negb (String.eqb (default EmptyString (metricsSet !! metric)) "counter")
      then w
      else
        match machineMetricsStart !! machineId with
        | None => w
        | Some ls =>
          match cell σ ls metric with
          | None => w
          | Some valueStart =>
            match ParseFloat valueStart with
            | inr e => (σ, (out ++ [String.append e Ssh.nl])%list)
            | inl valueStartFloat =>
              match ParseFloat valueEnd with
              | inr e => (σ, (out ++ [String.append e Ssh.nl])%list)
              | inl valueEndFloat =>
                (<[l := <[metric := formatF (fsub valueEndFloat valueStartFloat)]>
                          (default ∅ (σ !! l))]> σ, out)
              end
            end
          end
        end
    end
  end.

(** The inner [range] over one machine's metrics, in the order [metrics]. *)
Definition rangeMetrics (w : World) (machineId : string) (metrics : list string)
  : World :=
  fold_left (fun w metric => visit w machineId metric) metrics w.

(** [calculateDiffs]: the outer [range] in the order of [order], which gives
    each machine with the order its metrics are met in.  Go fixes neither
    order.  The result is the world left behind and the returned map. *)
Definition calculateDiffs (order : list (string * list string)) (w : World)
  : World * Outer :=
  (fold_left (fun w mo => rangeMetrics w (fst mo) (snd mo)) order w,
   machineMetricsEnd).

(** [order] is an order in which [range] can walk [machineMetricsEnd] in the
    store [σ]: every machine once, and under it every metric of its inner
    map once. *)
Definition range_order (σ : Store) (order : list (string * list string)) : Prop :=
  NoDup (order.*1) ∧
  (∀ m, m ∈ order.*1 ↔ is_Some (machineMetricsEnd !! m)) ∧
  (∀ m ks, (m, ks) ∈ order →
     NoDup ks ∧
     ∀ l, machineMetricsEnd !! m = Some l →
          ∀ k, k ∈ ks ↔ is_Some (cell σ l k)).

(** The claim's words: the formatted difference when the metric is a
    counter, the start snapshot has the machine and the metric, and both
    values parse; the end value otherwise. *)
Definition diffValue (σ : Store) (machineId metric valueEnd : string) : string :=
  if String.eqb (default EmptyString (metricsSet !! metric)) "counter" then
    match machineMetricsStart !! machineId with
    | Some ls =>
      match cell σ ls metric with
      | Some valueStart =>
        match ParseFloat valueStart, ParseFloat valueEnd with
        | inl s, inl e => formatF (fsub e s)
        | _, _ => valueEnd
        end
      | None => valueEnd
      end
    | None => valueEnd
    end
  else valueEnd.

(** No inner map is shared: not by two machines of the end snapshot, and
    not between the two snapshots. *)
Definition separate : Prop :=
  (∀ m1 m2 l, machineMetricsEnd !! m1 = Some l →
              machineMetricsEnd !! m2 = Some l → m1 = m2) ∧
  (∀ m1 m2 l, machineMetricsStart !! m1 = Some l →
              machineMetricsEnd !! m2 = Some l → False).

(** The store after the visits [vs], against the store [σ0] before them:
    the same maps exist, those not reached through the end snapshot are as
    they were, and an entry reached is rewritten once it has been visited. *)
Definition visited (σ0 : Store) (vs : list (string * string)) (σ : Store) : Prop :=
  (∀ l, is_Some (σ !! l) ↔ is_Some (σ0 !! l)) ∧
  (∀ l, (∀ m, machineMetricsEnd !! m ≠ Some l) → σ !! l = σ0 !! l) ∧
  (∀ m l k, machineMetricsEnd !! m = Some l →
     cell σ l k =
       (fun v => if decide ((m, k) ∈ vs) then diffValue σ0 m k v else v)
         <$> cell σ0 l k).

(** The visits of an order, one after the other. *)
Definition flat (order : list (string * list string)) : list (string * string) :=
  order ≫= (fun mo => pair (fst mo) <$> snd mo).

(** The claim's last words, for every store and every order: no inner map
    of the start snapshot is changed. *)
Definition start_never_modified : Prop :=
  ∀ σ out order,
    range_order σ order →
    ∀ m l, machineMetricsStart !! m = Some l →
           fst (fst (calculateDiffs order (σ, out))) !! l = σ !! l.

End Diffs.

(** An instance to run the function on: values that are whole numbers. *)
Definition parseWhole (s : string) : Z + Error :=
  match DecimalString.NilZero.int_of_string s with
  | Some i => inl (Z.of_int i)
  | None => inr ("strconv.ParseFloat: parsing " ++ s ++ ": invalid syntax")
  end.

Definition formatWhole (z : Z) : string :=
  DecimalString.NilZero.string_of_int (Z.to_int z) ++ ".000000".

(** One machine with one counter; [store_shared] is for a call that passes
    the same map as both snapshots, [store_apart] for two snapshots with an
    inner map each. *)
Definition snapshot (l : loc) : Outer := {[ "m1" := l ]}.
Definition counters : gmap string string := {[ "cpu" := "counter" ]}.
Definition store_shared : Store := {[ 1%positive := {[ "cpu" := "5" ]} ]}.
Definition store_apart : Store :=
  {[ 1%positive := {[ "cpu" := "5" ]}; 2%positive := {[ "cpu" := "12" ]} ]}.
Definition one_visit : list (string * list string) := [("m1", ["cpu"])].

End Metering.

(** ** Resource types and the [get] command *)
Module Resources.
Import GoStrings Http.

(** [var resourceTypes], line 340. *)
Definition resourceTypes : list string :=
  ["cloud"; "machine"; "volume"; "network"; "zone"; "image"; "key"].

(** The loop of [isValidResourceType] over the types still to try. *)
Fixpoint isValidIn (types : list string) (arg : string) : bool :=
  match types with
  | [] => false
  | r :: types => if HasPrefix (r ++ "s") arg then true else isValidIn types arg
  end.

Definition isValidResourceType (arg : string) : bool :=
  isValidIn resourceTypes arg.

(** The loop of [getResourceType]. *)
Fixpoint getIn (types : list string) (arg : string) : string :=
  match types with
  | [] => EmptyString
  | r :: types => if HasPrefix (r ++ "s") arg then r else getIn types arg
  end.

Definition getResourceType (arg : string) : string :=
  getIn resourceTypes arg.

Definition getResourceTypes (toComplete : string) : list string :=
  resourceTypes.

(** The generated API operations that [getCmd] and the completion call. *)
Inductive ApiCall :=
| MistApiV2GetCloud (id : string)
| MistApiV2ListClouds
| MistApiV2GetMachine (id : string)
| MistApiV2ListMachines
| MistApiV2GetVolume (id : string)
| MistApiV2ListVolumes
| MistApiV2GetNetwork (id : string)
| MistApiV2ListNetworks
| MistApiV2GetImage (id : string)
| MistApiV2ListImages
| MistApiV2GetKey (id : string)
| MistApiV2ListKeys
| MistApiV2GetRule (id : string)
| MistApiV2ListRules.

(** What the [if] chain of [Run] (lines 420-462) comes to. *)
Inductive Dispatch :=
| IndexPanic
| NoCall
| Call (c : ApiCall).

(** One arm of the chain: [len(args) == 2] gets, [len(args) == 1] lists,
    any other length does nothing. *)
Definition arm (get : string -> ApiCall) (list_ : ApiCall) (args : list string)
  : Dispatch :=
  match args with
  | [_; id] => Call (get id)
  | [_] => Call list_
  | _ => NoCall
  end.

(** The chain; [args[0]] on no arguments is an index out of range. *)
Definition dispatch (args : list string) : Dispatch :=
  match args with
  | [] => IndexPanic
  | arg :: _ =>
      if HasPrefix "clouds" arg then arm MistApiV2GetCloud MistApiV2ListClouds args
      else if HasPrefix "machines" arg
           then arm MistApiV2GetMachine MistApiV2ListMachines args
      else if HasPrefix "volumes" arg
           then arm MistApiV2GetVolume MistApiV2ListVolumes args
      else if HasPrefix "networks" arg
           then arm MistApiV2GetNetwork MistApiV2ListNetworks args
      else if HasPrefix "images" arg
           then arm MistApiV2GetImage MistApiV2ListImages args
      else if HasPrefix "keys" arg then arm MistApiV2GetKey MistApiV2ListKeys args
      else if HasPrefix "rules" arg then arm MistApiV2GetRule MistApiV2ListRules args
      else NoCall
  end.

(** The [Args] function of [getCmd], lines 405-414. *)
Definition getArgs (args : list string) : option Error :=
  match args with
  | [] => Some "requires a valid resource type"
  | arg :: _ =>
      if isValidResourceType arg then None
      else Some ("invalid resource type specified: " ++ arg)
  end.

Section Run.

(** The decoded response, the output options with their zero value, the
    API and the formatter. *)
Variables Decoded Options : Type.
Variable zeroOptions : Options.
Variable api : ApiCall -> option Decoded * Options * option Error.
Variable Format : option Decoded -> Options -> option Error.

Inductive GetEvent :=
| GCall (c : ApiCall)
| GFormat (decoded : option Decoded) (o : Options)
| GFatal (msg : string).

Inductive GetOutcome := GDone | GExit | GPanic.

(** Lines 464-470 on what the chain left in [decoded], [outputOptions] and
    [err]; [logger.Fatalf] prints and exits. *)
Definition finish (called : list GetEvent)
    (r : option Decoded * Options * option Error) : GetOutcome * list GetEvent :=
  let '(decoded, outputOptions, err) := r in
  match err with
  | Some e => (GExit, called ++ [GFatal ("Error calling operation: " ++ e)])%list
  | None =>
      match Format decoded outputOptions with
      | Some e =>
          (GExit,
           called ++ [GFormat decoded outputOptions;
                      GFatal ("Formatting failed: " ++ e)])%list
      | None => (GDone, called ++ [GFormat decoded outputOptions])%list
      end
  end.

(** The [Run] function of [getCmd]. *)
Definition getRun (args : list string) : GetOutcome * list GetEvent :=
  match dispatch args with
  | IndexPanic => (GPanic, [])
  | NoCall => finish [] (None, zeroOptions, None)
  | Call c => finish [GCall c] (api c)
  end.

(** Cobra runs [Args] first and [Run] only when it returned no error. *)
Definition getCmd (args : list string) : Error + GetOutcome * list GetEvent :=
  match getArgs args with
  | Some e => inl e
  | None => inr (getRun args)
  end.

End Run.

(** The [switch] of [getResourcesFromBackend], lines 368-383: the list
    operation asked for the names, none for a type without a case. *)
Definition backendCall (resourceType : string) : option ApiCall :=
  if String.eqb resourceType "cloud" then Some MistApiV2ListClouds
  else if String.eqb resourceType "machine" then Some MistApiV2ListMachines
  else if String.eqb resourceType "volume" then Some MistApiV2ListVolumes
  else if String.eqb resourceType "network" then Some MistApiV2ListNetworks
  else if String.eqb resourceType "image" then Some MistApiV2ListImages
  else if String.eqb resourceType "key" then Some MistApiV2ListKeys
  else None.

(** What [ValidArgsFunction] (lines 395-404) asks of the backend. *)
Definition completionCall (args : list string) : option ApiCall :=
  match args with
  | [arg] => backendCall (getResourceType arg)
  | _ => None
  end.

(** The resource an operation is about, as [resourceTypes] names it. *)
Definition call_resource (c : ApiCall) : string :=
  match c with
  | MistApiV2GetCloud _ | MistApiV2ListClouds => "cloud"
  | MistApiV2GetMachine _ | MistApiV2ListMachines => "machine"
  | MistApiV2GetVolume _ | MistApiV2ListVolumes => "volume"
  | MistApiV2GetNetwork _ | MistApiV2ListNetworks => "network"
  | MistApiV2GetImage _ | MistApiV2ListImages => "image"
  | MistApiV2GetKey _ | MistApiV2ListKeys => "key"
  | MistApiV2GetRule _ | MistApiV2ListRules => "rule"
  end.

(** The identifier an operation is given, none for a list operation. *)
Definition call_id (c : ApiCall) : option string :=
  match c with
  | MistApiV2GetCloud id | MistApiV2GetMachine id | MistApiV2GetVolume id
  | MistApiV2GetNetwork id | MistApiV2GetImage id | MistApiV2GetKey id
  | MistApiV2GetRule id => Some id
  | _ => None
  end.

End Resources.

(** ** Collecting the metering data *)
Module MeteringData.
Import Http Metering.

(** A value decoded into [interface{}]: a string, or anything else. *)
Inductive Any :=
| AString (s : string)
| AOther.

(** [type resultItem], lines 235-238; a nil [Value] is [None]. *)
Record resultItem := mkItem {
  Metric : gmap string string;
  Value : option (list Any)
}.

(** Reading a Go map of strings: the empty string for a missing key. *)
Definition get (m : gmap string string) (k : string) : string :=
  default EmptyString (m !! k).

(** The three maps the function builds, and the store their inner maps are
    allocated in. *)
Record Collected := mkCollected {
  metricsSet : gmap string string;
  machineMetrics : Outer;
  machineNames : gmap string string;
  store : Store
}.

Inductive Panic :=
| IndexOutOfRange (index len : nat)
| NotAString
| AssignToNilMap.

(** [machineMetrics[id] == nil]: no entry, or an entry that is a nil map. *)
Definition isNil (c : Collected) (id : string) : bool :=
  match machineMetrics c !! id ≫= (fun l => store c !! l) with
  | None => true
  | Some _ => false
  end.

(** Lines 265-268: a machine seen for the first time gets a new map, made
    at a place of the store that holds nothing, and its name. *)
Definition register (c : Collected) (item : resultItem) : Collected :=
  let id := get (Metric item) "machine_id" in
  if isNil c id then
    let l := fresh (dom (store c)) in
    mkCollected (metricsSet c) (<[id := l]> (machineMetrics c))
      (<[id := get (Metric item) "name"]> (machineNames c))
      (<[l := ∅]> (store c))
  else c.

(** Lines 269-271: [item.Value[1].(string)] stored under the metric's
    name. *)
Definition record (c : Collected) (item : resultItem) : Collected + Panic :=
  match Value item with
  | None => inl c
  | Some value =>
      match value !! 1%nat with
      | None => inr (IndexOutOfRange 1 (length value))
      | Some AOther => inr NotAString
      | Some (AString s) =>
          match machineMetrics c !! get (Metric item) "machine_id" with
          | None => inr AssignToNilMap
          | Some l =>
              match store c !! l with
              | None => inr AssignToNilMap
              | Some metrics =>
                  inl (mkCollected (metricsSet c) (machineMetrics c)
                         (machineNames c)
                         (<[l := <[get (Metric item) "__name__" := s]> metrics]>
                            (store c)))
              end
          end
      end
  end.

(** Line 272. *)
Definition typed (c : Collected) (item : resultItem) : Collected :=
  mkCollected
    (<[get (Metric item) "__name__" := get (Metric item) "value_type"]>
       (metricsSet c))
    (machineMetrics c) (machineNames c) (store c).

(** One turn of the loop of lines 264-273. *)
Definition turn (c : Collected) (item : resultItem) : Collected + Panic :=
  match record (register c item) item with
  | inl c' => inl (typed c' item)
  | inr p => inr p
  end.

Fixpoint turns (c : Collected) (items : list resultItem) : Collected + Panic :=
  match items with
  | [] => inl c
  | item :: items =>
      match turn c item with
      | inl c' => turns c' items
      | inr p => inr p
      end
  end.

(** [getMeteringData] from line 260 on, on the result list the response
    was decoded into; its maps are made in the store [σ]. *)
Definition getMeteringData (result : list resultItem) (σ : Store)
  : Collected + Panic :=
  turns (mkCollected ∅ ∅ ∅ σ) result.

(** An item whose value is there and has no string at index 1. *)
Definition unreadable (item : resultItem) : Prop :=
  match Value item with
  | None => False
  | Some value =>
      match value !! 1%nat with
      | Some (AString _) => False
      | _ => True
      end
  end.

(** What the loop keeps true of the maps it builds in a store that was [σ0]:
    the two machine maps have the same machines; each machine has a map of
    its own, made after [σ0]; the maps of [σ0] are as they were; each metric
    with a value has a type. *)
Definition collected_from (σ0 : Store) (c : Collected) : Prop :=
  (∀ id, is_Some (machineNames c !! id) ↔ is_Some (machineMetrics c !! id)) ∧
  (∀ id l, machineMetrics c !! id = Some l →
           is_Some (store c !! l) ∧ σ0 !! l = None) ∧
  (∀ id1 id2 l, machineMetrics c !! id1 = Some l →
                machineMetrics c !! id2 = Some l → id1 = id2) ∧
  (∀ l, is_Some (σ0 !! l) → store c !! l = σ0 !! l) ∧
  (∀ id l k, machineMetrics c !! id = Some l →
             is_Some (cell (store c) l k) → is_Some (metricsSet c !! k)).

Section Cmd.
Variable F : Type.
Variable ParseFloat : string -> F + Error.
Variable fsub : F -> F -> F.
Variable formatF : F -> string.

(** [meteringCmd], lines 323-325: the start snapshot from the first query,
    the types and the end snapshot from the second, then the diff. *)
Definition meteringDiffs (first last_ : list resultItem) (σ : Store)
    (order : list (string * list string)) : Collected * World + Panic :=
  match getMeteringData first σ with
  | inr p => inr p
  | inl start =>
      match getMeteringData last_ (store start) with
      | inr p => inr p
      | inl end_ =>
          inl (end_,
               fst (calculateDiffs F ParseFloat fsub formatF
                      (machineMetrics start) (machineMetrics end_)
                      (metricsSet end_) order (store end_, [])))
      end
  end.

End Cmd.

End MeteringData.

(** ** Formatting the metering data *)
Module MeteringTable.
Import Http Metering MeteringData.

(** [sort.Strings]: increasing order of the bytes.  A list has one sorted
    arrangement, so the sorting algorithm does not matter. *)
Definition sortStrings (l : list string) : list string :=
  merge_sort String.le l.

(** An order in which [range] may meet the keys of a map. *)
Definition keys_range {V} (m : gmap string V) (ks : list string) : Prop :=
  NoDup ks ∧ ∀ k, k ∈ ks ↔ is_Some (m !! k).

Section Table.
Variable metricsSet : gmap string string.
Variable machineMetrics : Outer.
Variable machineNames : gmap string string.
Variable σ : Store.

(** [machineMetrics[machine][metric]]: empty for a machine or a metric that
    is not there. *)
Definition value (machine metric : string) : string :=
  match machineMetrics !! machine with
  | Some l => default EmptyString (cell σ l metric)
  | None => EmptyString
  end.

(** One turn of the inner loop, lines 196-200. *)
Definition fill (machine : string) (machineData : gmap string string)
    (metric : string) : gmap string string :=
  let machineData :=
    match machineData !! "machine_id" with
    | None =>
        <["name" := get machineNames machine]>
          (<["machine_id" := machine]> machineData)
    | Some _ => machineData
    end in
  <[metric := value machine metric]> machineData.

(** The row of a machine, lines 194-201. *)
Definition row (metricsList : list string) (machine : string)
  : gmap string string :=
  fold_left (fill machine) metricsList ∅.

(** Lines 202-205. *)
Definition add_row (data : gmap string (list (gmap string string)))
    (r : gmap string string) : gmap string (list (gmap string string)) :=
  let data :=
    match data !! "data" with
    | None => <["data" := []]> data
    | Some _ => data
    end in
  <["data" := (default [] (data !! "data") ++ [r])%list]> data.

(** What [formatMeteringData] hands to the formatter: the data and the two
    column lists of the output options.  [metricsRange] and [machinesRange]
    are the orders in which the two [range] loops meet the keys. *)
Definition formatArgs (metricsRange machinesRange : list string)
  : gmap string (list (gmap string string)) * (list string * list string) :=
  let metricsList := sortStrings metricsRange in
  let machines := sortStrings machinesRange in
  let data :=
    fold_left (fun data machine => add_row data (row metricsList machine))
      machines ∅ in
  (data, ("name" :: metricsList, "machine_id" :: "name" :: metricsList)).

(** [formatMeteringData]: the call of the formatter, and the message of
    [logger.Fatalf] when it fails. *)
Definition formatMeteringData
    (Format : gmap string (list (gmap string string)) ->
              list string * list string -> option Error)
    (metricsRange machinesRange : list string)
  : gmap string (list (gmap string string)) * (list string * list string)
    * option string :=
  let args := formatArgs metricsRange machinesRange in
  (args,
   match Format (fst args) (snd args) with
   | Some e => Some ("Formatting failed: " ++ e)
   | None => None
   end).

End Table.

End MeteringTable.

(** ** Runs of the metering command *)
Module MeteringScenario.
Import Http Metering MeteringData.

(** An item of a response: the labels, and the pair of a timestamp and the
    value as a string. *)
Definition sample (id name metric type v : string) : resultItem :=
  mkItem {[ "machine_id" := id; "name" := name; "__name__" := metric;
            "value_type" := type ]}
         (Some [AOther; AString v]).

(** A machine with a counter and a gauge, asked twice; the second answer
    has a machine more. *)
Definition first_response : list resultItem :=
  [sample "m1" "web" "cpu" "counter" "5";
   sample "m1" "web" "load" "gauge" "3"].
Definition last_response : list resultItem :=
  [sample "m1" "web" "cpu" "counter" "12";
   sample "m2" "db" "cpu" "counter" "8";
   sample "m1" "web" "load" "gauge" "4"].

(** What the two calls collect, the second in the store of the first. *)
Definition first_collected : Collected :=
  mkCollected {[ "cpu" := "counter"; "load" := "gauge" ]}
    {[ "m1" := 1%positive ]} {[ "m1" := "web" ]}
    {[ 1%positive := {[ "cpu" := "5"; "load" := "3" ]} ]}.

Definition last_collected : Collected :=
  mkCollected {[ "cpu" := "counter"; "load" := "gauge" ]}
    {[ "m1" := 2%positive; "m2" := 3%positive ]}
    {[ "m1" := "web"; "m2" := "db" ]}
    {[ 1%positive := {[ "cpu" := "5"; "load" := "3" ]};
       2%positive := {[ "cpu" := "12"; "load" := "4" ]};
       3%positive := {[ "cpu" := "8" ]} ]}.

(** The store after the diff. *)
Definition diffed : Store :=
  {[ 1%positive := {[ "cpu" := "5"; "load" := "3" ]};
     2%positive := {[ "cpu" := "7.000000"; "load" := "4" ]};
     3%positive := {[ "cpu" := "8" ]} ]}.

(** Two orders in which [range] may walk the second snapshot. *)
Definition last_order : list (string * list string) :=
  [("m1", ["load"; "cpu"]); ("m2", ["cpu"])].
Definition last_order' : list (string * list string) :=
  [("m2", ["cpu"]); ("m1", ["cpu"; "load"])].

End MeteringScenario.

(** ** More runs of the [ssh] command *)
Module SshScenario.
Import Http Ssh Scenario.

(** The machine name makes the URL of the session request unparsable. *)
Definition bad_url : Env :=
  mkEnv None ("mist.io", None) ("tok", None)
    (fun _ => Some "invalid URL escape")
    (fun _ _ => inl handshake) (fun _ => None)
    dial_direct (fun _ ref => inl ref)
    None None (80, 24) None remote_close.

(** The socket opens, and standard input is not a terminal that can be put
    into raw mode. *)
Definition no_raw : Env :=
  mkEnv None ("mist.io", None) ("tok", None) (fun _ => None)
    (fun _ _ => inl handshake) (fun _ => None)
    dial_direct (fun _ ref => inl ref)
    None (Some "inappropriate ioctl for device") (80, 24) None remote_close.

End SshScenario.

(** * Properties *)

(** ** Timing *)

(** C5: the write deadline is 2 seconds, the pong wait 10 seconds and the
    ping period 9 seconds; the ping period is nine tenths of the pong wait
    and strictly below it. *)
Theorem timing_constants :
  GoTime.Second = 1000000000 ∧
  Ssh.writeWait = 2 * GoTime.Second ∧
  Ssh.pongWait = 10 * GoTime.Second ∧
  Ssh.pingPeriod = 9 * GoTime.Second ∧
  10 * Ssh.pingPeriod = 9 * Ssh.pongWait ∧
  Ssh.pingPeriod < Ssh.pongWait.
Proof.
  assert (Hs : GoTime.Second = 1000000000) by (vm_compute; reflexivity).
  assert (Hw : Ssh.writeWait = 2000000000) by (vm_compute; reflexivity).
  assert (Hp : Ssh.pongWait = 10000000000) by (vm_compute; reflexivity).
  assert (Hq : Ssh.pingPeriod = 9000000000) by (vm_compute; reflexivity).
  rewrite Hs, Hw, Hp, Hq. repeat split; lia.
Qed.

(** ** The server address *)

Section Normalize.
Import GoStrings.

Lemma append_empty_r (s : string) : s ++ EmptyString = s.
Proof.
  induction s as [|a s IH]; [reflexivity|].
  change (String a (s ++ EmptyString) = String a s). now rewrite IH.
Qed.

(** The added slash cannot complete the prefix [http]. *)
Lemma HasPrefix_http_slash (s : string) :
  HasPrefix (s ++ "/") "http" = HasPrefix s "http".
Proof.
  destruct s as [|a [|b [|c [|d s]]]]; try reflexivity.
  - unfold HasPrefix; simpl.
    destruct (Ascii.eqb a "h"), (Ascii.eqb b "t"), (Ascii.eqb c "t"); reflexivity.
  - unfold HasPrefix; simpl.
    destruct s; reflexivity.
Qed.

(** C6: the address gets a slash appended when it has none, then the scheme
    prepended when it does not start with [http]; what comes out starts with
    [http] and ends with a slash. *)
Theorem normalizeServer_shape (server : string) :
  Ssh.normalizeServer server =
    (if HasPrefix server "http" then EmptyString else "http://") ++
    server ++
    (if HasSuffix server "/" then EmptyString else "/") ∧
  HasPrefix (Ssh.normalizeServer server) "http" = true ∧
  HasSuffix (Ssh.normalizeServer server) "/" = true.
Proof.
  unfold Ssh.normalizeServer.
  destruct (HasSuffix server "/") eqn:Hsuf; cbn [negb].
  - rewrite append_empty_r.
    destruct (HasPrefix server "http") eqn:Hpre; cbn [negb].
    + auto.
    + split; [reflexivity|split].
      * apply (HasPrefix_app_self "http" ("://" ++ server)).
      * now apply HasSuffix_app_l.
  - rewrite HasPrefix_http_slash.
    destruct (HasPrefix server "http") eqn:Hpre; cbn [negb].
    + split; [reflexivity|split].
      * now rewrite HasPrefix_http_slash.
      * apply HasSuffix_app_self.
    + split; [reflexivity|split].
      * apply (HasPrefix_app_self "http" ("://" ++ (server ++ "/"))).
      * apply HasSuffix_app_l, HasSuffix_app_self.
Qed.

End Normalize.

(** ** The phases of the [ssh] command *)

Section SshPhases.
Import GoStrings GoTime Http Ssh.
Local Open Scope go_scope.

Ltac go :=
  cbn [bind ret emit defer return_ panic check Println
       trace defers term saved fst snd Method URL ReqHeader Body].

Lemma Add_Authorization (token : string) :
  Add ∅ "Authorization" token = authHeader token.
Proof.
  unfold Add, authHeader. cbv zeta.
  change (CanonicalMIMEHeaderKey "Authorization") with "Authorization".
  rewrite lookup_empty. cbn [default app]. apply insert_empty.
Qed.

Lemma push_nil (s : St) : push s [] [] = s.
Proof. destruct s. unfold push. cbn. now rewrite app_nil_r. Qed.

Lemma push_push (s : St) es ds es' ds' :
  push (push s es ds) es' ds' = push s (es ++ es') (ds' ++ ds).
Proof. unfold push. cbn. now rewrite <- !app_assoc. Qed.

Variable env : Env.
Variable machine : string.

(** *** The session request *)

Lemma launch_context_error e s :
  setMistContext env = Some e →
  launch env machine s =
    (Return, push s [EPrint ("Cannot set context " ++ e ++ nl)] []).
Proof. intros Hc. unfold launch. rewrite Hc. go. reflexivity. Qed.

Lemma launch_server_error server e s :
  setMistContext env = None →
  getServer env = (server, Some e) →
  launch env machine s = (Return, push s [EPrint (e ++ nl)] []).
Proof. intros Hc Hs. unfold launch. rewrite Hc, Hs. go. reflexivity. Qed.

Lemma launch_token_error server token e s :
  setMistContext env = None →
  getServer env = (server, None) →
  getToken env = (token, Some e) →
  launch env machine s = (Return, push s [EPrint (e ++ nl)] []).
Proof.
  intros Hc Hs Ht. unfold launch. rewrite Hc, Hs, Ht.
  destruct (NewRequest env "POST" (sshPath server machine) None) as [req err].
  go. reflexivity.
Qed.

Lemma launch_request_nil server token e s :
  setMistContext env = None →
  getServer env = (server, None) →
  parseURL env (sshPath server machine) = Some e →
  getToken env = (token, None) →
  launch env machine s = (Panicked nilDeref, s).
Proof.
  intros Hc Hs Hp Ht. unfold launch, NewRequest. rewrite Hc, Hs, Hp, Ht.
  go. reflexivity.
Qed.

Lemma launch_do_error server token e s :
  setMistContext env = None →
  getServer env = (server, None) →
  parseURL env (sshPath server machine) = None →
  getToken env = (token, None) →
  clientDo env sshClient (sshRequest server machine token) = inr e →
  launch env machine s =
    (Return,
     push s [EDo sshClient (sshRequest server machine token); EPrint (e ++ nl)] []).
Proof.
  intros Hc Hs Hp Ht Hd. unfold launch, NewRequest. rewrite Hc, Hs, Hp, Ht.
  go. rewrite Add_Authorization. fold (sshRequest server machine token).
  unfold Do. go. rewrite Hd. go. unfold push. go.
  now rewrite <- app_assoc.
Qed.

Lemma launch_read_error server token resp e s :
  setMistContext env = None →
  getServer env = (server, None) →
  parseURL env (sshPath server machine) = None →
  getToken env = (token, None) →
  clientDo env sshClient (sshRequest server machine token) = inl resp →
  readAll env resp = Some e →
  launch env machine s =
    (Return,
     push s [EDo sshClient (sshRequest server machine token); EReadAll;
             EPrint (e ++ nl)] [DBodyClose]).
Proof.
  intros Hc Hs Hp Ht Hd Hr. unfold launch, NewRequest. rewrite Hc, Hs, Hp, Ht.
  go. rewrite Add_Authorization. fold (sshRequest server machine token).
  unfold Do, ReadAll. go. rewrite Hd. go. rewrite Hr. go. unfold push. go.
  now rewrite <- !app_assoc.
Qed.

Lemma launch_ok server token resp s :
  setMistContext env = None →
  getServer env = (server, None) →
  parseURL env (sshPath server machine) = None →
  getToken env = (token, None) →
  clientDo env sshClient (sshRequest server machine token) = inl resp →
  readAll env resp = None →
  launch env machine s =
    (Next (token, Get (RespHeader resp) "location"),
     push s [EDo sshClient (sshRequest server machine token); EReadAll]
            [DBodyClose]).
Proof.
  intros Hc Hs Hp Ht Hd Hr. unfold launch, NewRequest. rewrite Hc, Hs, Hp, Ht.
  go. rewrite Add_Authorization. fold (sshRequest server machine token).
  unfold Do, ReadAll. go. rewrite Hd. go. rewrite Hr. go. unfold push. go.
  now rewrite <- !app_assoc.
Qed.

Lemma launched_launch server token location s :
  launched env machine server token location →
  launch env machine s =
    (Next (token, location),
     push s [EDo sshClient (sshRequest server machine token); EReadAll]
            [DBodyClose]).
Proof.
  intros (resp & Hc & Hs & Hp & Ht & Hd & Hr & ->).
  now apply launch_ok.
Qed.

(** *** The upgrade *)

Lemma upgrade_single token location s :
  let d := dial env (length (dials (trace s))) location (authHeader token) in
  (∀ r, dial_resp d = Some r → StatusCode r ≠ 302) →
  upgrade env token location s =
    finish_dial d (push s [EDial location (authHeader token)] []).
Proof.
  intros d Hno. unfold upgrade, Dial. go. fold d.
  unfold dial_resp in Hno.
  destruct d as [c r|r|e]; cbn [dial_triple fst snd] in *.
  - destruct (Z.eqb_spec (StatusCode r) 302) as [E|_]; [now destruct (Hno r)|].
    go. unfold finish_dial, push. go. now rewrite app_nil_r.
  - destruct (Z.eqb_spec (StatusCode r) 302) as [E|_]; [now destruct (Hno r)|].
    go. unfold finish_dial, push. go. now rewrite <- app_assoc.
  - go. unfold finish_dial, push. go. now rewrite <- app_assoc.
Qed.

Lemma dials_snoc tr url h :
  dials (tr ++ [EDial url h]) = (dials tr ++ [(url, h)])%list.
Proof. unfold dials. now rewrite omap_app. Qed.

Lemma upgrade_retry token location r1 u e s :
  let n := length (dials (trace s)) in
  dial_resp (dial env n location (authHeader token)) = Some r1 →
  StatusCode r1 = 302 →
  Location (resolve env) r1 = (Some u, e) →
  upgrade env token location s =
    finish_dial (dial env (S n) u (authHeader token))
      (push s [EDial location (authHeader token); EDial u (authHeader token)] []).
Proof.
  intros n Hr H302 Hloc. subst n. unfold upgrade, Dial. go.
  unfold dial_resp in Hr.
  destruct (dial_triple (dial env (length (dials (trace s))) location
                           (authHeader token)))
    as [[c resp] err]. cbn [fst snd] in Hr. subst resp.
  rewrite H302, Hloc. cbn [Z.eqb Pos.eqb]. go.
  rewrite dials_snoc, length_app. cbn [length]. rewrite Nat.add_1_r.
  destruct (dial env (S (length (dials (trace s)))) u (authHeader token))
    as [c2 r2|r2|e2];
    cbn [dial_triple]; go; unfold finish_dial, push; go;
    rewrite <- ?app_assoc, ?app_nil_r; reflexivity.
Qed.

Lemma upgrade_retry_nil token location r1 e s :
  let n := length (dials (trace s)) in
  dial_resp (dial env n location (authHeader token)) = Some r1 →
  StatusCode r1 = 302 →
  Location (resolve env) r1 = (None, e) →
  upgrade env token location s =
    (Panicked nilDeref, push s [EDial location (authHeader token)] []).
Proof.
  intros n Hr H302 Hloc. subst n. unfold upgrade, Dial. go.
  unfold dial_resp in Hr.
  destruct (dial_triple (dial env (length (dials (trace s))) location
                           (authHeader token)))
    as [[c resp] err]. cbn [fst snd] in Hr. subst resp.
  rewrite H302, Hloc. cbn [Z.eqb Pos.eqb]. go. reflexivity.
Qed.

(** *** The session *)

Lemma until_fire_tasks sch :
  forallb is_ETask (fst (until_fire sch)) = true.
Proof.
  induction sch as [|[t a] sch IH]; [reflexivity|].
  cbn [until_fire]. destruct (is_fire a); [reflexivity|].
  destruct (until_fire sch) as [es fired]. exact IH.
Qed.

Lemma session_eq c s :
  session env c s =
    match consoleCurrent env with
    | Some e => (Panicked e, push s [ECurrent] [])
    | None =>
      match setRaw env with
      | Some e =>
          (Panicked e,
           mkSt (trace s ++ [ECurrent; ESetRaw]) (defers s) (term s) (term s))
      | None =>
        match resizeWrite env with
        | Some e => (Return, push (sized env c s) [EPrint (e ++ nl)] [])
        | None =>
            if snd (until_fire (schedule env))
            then (Next tt,
                  push (sized env c s)
                    (goes c ++ fst (until_fire (schedule env)) ++ [ERecvDone]) [])
            else (Blocked,
                  push (sized env c s) (goes c ++ fst (until_fire (schedule env))) [])
        end
      end
    end.
Proof.
  unfold session, Current, SetRaw, updateTerminalSize, recvDone, sized, push.
  destruct (consoleCurrent env) as [e|]; go; [reflexivity|].
  destruct (setRaw env) as [e|]; go.
  { now rewrite <- app_assoc. }
  destruct (terminalSize env) as [columns rows]. go.
  destruct (resizeWrite env) as [e|]; go.
  { now rewrite <- !app_assoc. }
  destruct (until_fire (schedule env)) as [es fired].
  destruct fired; cbn [fst snd goes]; rewrite <- !app_assoc; reflexivity.
Qed.

(** *** Leaving *)

Lemma runDefers_fold ds tr m sv :
  fold_left runDeferred ds (mkSt tr [] m sv) =
    mkSt (tr ++ map deferred_event ds) []
         (if existsb is_DReset ds then sv else m) sv.
Proof.
  revert tr m. induction ds as [|d ds IH]; intros tr m; cbn [fold_left map existsb].
  - now rewrite app_nil_r.
  - destruct d; unfold runDeferred, Reset;
      cbn [trace defers term saved is_DReset orb deferred_event];
      rewrite IH, <- app_assoc; cbn [app]; try reflexivity.
    now destruct (existsb is_DReset ds).
Qed.

Lemma runDefers_eq s :
  runDefers s =
    mkSt (trace s ++ map deferred_event (defers s)) []
         (if existsb is_DReset (defers s) then saved s else term s) (saved s).
Proof. unfold runDefers. apply runDefers_fold. Qed.

(** *** Every way through the two phases before the session *)

Lemma launch_cases s :
  ∃ ctl es ds,
    launch env machine s = (ctl, push s es ds) ∧
    forallb is_pre_event es = true ∧
    dials es = [] ∧
    match ctl with
    | Next (token, location) =>
        (∃ server, launched env machine server token location) ∧
        ds = [DBodyClose]
    | Return | Panicked _ => existsb is_DReset ds = false
    | Blocked => False
    end.
Proof.
  destruct (setMistContext env) as [e|] eqn:Hc.
  { eexists _, _, _. split; [apply launch_context_error; exact Hc|]. now cbn. }
  destruct (getServer env) as [server [e|]] eqn:Hs.
  { eexists _, _, _. split; [eapply launch_server_error; eassumption|]. now cbn. }
  destruct (getToken env) as [token [e|]] eqn:Ht.
  { eexists _, _, _. split; [eapply launch_token_error; eassumption|]. now cbn. }
  destruct (parseURL env (sshPath server machine)) as [e|] eqn:Hp.
  { exists (Panicked nilDeref), [], []. rewrite push_nil.
    split; [eapply launch_request_nil; eassumption|]. now cbn. }
  destruct (clientDo env sshClient (sshRequest server machine token))
    as [resp|e] eqn:Hd.
  2:{ eexists _, _, _. split; [eapply launch_do_error; eassumption|]. now cbn. }
  destruct (readAll env resp) as [e|] eqn:Hr.
  { eexists _, _, _. split; [eapply launch_read_error; eassumption|]. now cbn. }
  eexists _, _, _. split; [eapply launch_ok; eassumption|].
  cbn. repeat split; try reflexivity.
  exists server, resp. auto 10.
Qed.

Lemma finish_dial_cases d s es0 :
  forallb is_pre_event es0 = true →
  ∃ ctl es ds,
    finish_dial d (push s es0 []) = (ctl, push s es ds) ∧
    forallb is_pre_event es = true ∧
    dials es = dials es0 ∧
    match ctl with
    | Next c => ds = [DConnClose c]
    | Return => ds = [] ∧ ∃ e, dial_err d = Some e ∧ es = (es0 ++ [EPrint (e ++ nl)])%list
    | _ => False
    end.
Proof.
  intros Hes. destruct d as [c r|r|e]; cbn [finish_dial]; rewrite push_push;
    eexists _, _, _; (split; [reflexivity|]);
    rewrite ?app_nil_r, ?forallb_app; unfold dials; rewrite ?omap_app;
    cbn; rewrite ?app_nil_r, ?Hes; eauto 10.
Qed.

Lemma upgrade_cases token location s :
  ∃ ctl es ds,
    upgrade env token location s = (ctl, push s es ds) ∧
    forallb is_pre_event es = true ∧
    match ctl with
    | Next c => ds = [DConnClose c]
    | Return | Panicked _ => ds = []
    | Blocked => False
    end.
Proof.
  set (d := dial env (length (dials (trace s))) location (authHeader token)).
  destruct (dial_resp d) as [r1|] eqn:Hr.
  - destruct (Z.eq_dec (StatusCode r1) 302) as [H302|Hne].
    + destruct (Location (resolve env) r1) as [[u|] e] eqn:Hloc.
      * rewrite (upgrade_retry _ _ r1 u e); auto.
        destruct (finish_dial_cases
                    (dial env (S (length (dials (trace s)))) u (authHeader token)) s
                    [EDial location (authHeader token); EDial u (authHeader token)]
                    eq_refl) as (ctl & es & ds & -> & Hes & _ & Hctl).
        exists ctl, es, ds. repeat split; auto.
        destruct ctl; intuition.
      * rewrite (upgrade_retry_nil _ _ r1 e); auto.
        eexists _, _, _. split; [reflexivity|]. now cbn.
    + rewrite upgrade_single.
      2:{ fold d. intros r Hr'. congruence. }
      fold d.
      destruct (finish_dial_cases d s [EDial location (authHeader token)] eq_refl)
        as (ctl & es & ds & -> & Hes & _ & Hctl).
      exists ctl, es, ds. repeat split; auto. destruct ctl; intuition.
  - rewrite upgrade_single.
    2:{ fold d. intros r Hr'. congruence. }
    fold d.
    destruct (finish_dial_cases d s [EDial location (authHeader token)] eq_refl)
      as (ctl & es & ds & -> & Hes & _ & Hctl).
    exists ctl, es, ds. repeat split; auto. destruct ctl; intuition.
Qed.

(** The command either leaves before the session, having touched nothing but
    the network and the standard output, or enters the session with the two
    closes deferred. *)
Lemma Run_cases s0 :
  (∃ c es,
      Run env machine s0 = session env c (push s0 es [DConnClose c; DBodyClose]) ∧
      forallb is_pre_event es = true) ∨
  (∃ es ds,
      (Run env machine s0 = (Return, push s0 es ds) ∨
       ∃ e, Run env machine s0 = (Panicked e, push s0 es ds)) ∧
      forallb is_pre_event es = true ∧
      existsb is_DReset ds = false).
Proof.
  unfold Run, bind.
  destruct (launch_cases s0) as (ctl & es & ds & -> & Hes & _ & Hctl).
  destruct ctl as [[token location]| |e|]; [|right; eauto 10..|easy].
  destruct Hctl as [_ ->].
  destruct (upgrade_cases token location (push s0 es [DBodyClose]))
    as (ctl & es' & ds' & -> & Hes' & Hctl).
  rewrite push_push.
  assert (Hall : forallb is_pre_event (es ++ es') = true)
    by (rewrite forallb_app, Hes, Hes'; reflexivity).
  destruct ctl as [c| |e|]; [|subst ds'..|easy].
  - subst ds'. left. exists c, (es ++ es')%list. auto.
  - right. eexists _, _. split; [left; reflexivity|]. auto.
  - right. eexists _, _. split; [right; eexists; reflexivity|]. auto.
Qed.

(** *** The whole command along each path *)

Lemma leave_session c s :
  leave (session env c s) =
    match consoleCurrent env with
    | Some e => (Crashed e, runDefers (push s [ECurrent] []))
    | None =>
      match setRaw env with
      | Some e =>
          (Crashed e,
           runDefers (mkSt (trace s ++ [ECurrent; ESetRaw]) (defers s)
                           (term s) (term s)))
      | None =>
        match resizeWrite env with
        | Some e =>
            (Returned, runDefers (push (sized env c s) [EPrint (e ++ nl)] []))
        | None =>
            if snd (until_fire (schedule env))
            then (Returned,
                  runDefers
                    (push (sized env c s)
                       (goes c ++ fst (until_fire (schedule env)) ++ [ERecvDone])
                       []))
            else (Waiting,
                  push (sized env c s) (goes c ++ fst (until_fire (schedule env)))
                       [])
        end
      end
    end.
Proof.
  rewrite session_eq.
  destruct (consoleCurrent env), (setRaw env), (resizeWrite env),
    (snd (until_fire (schedule env))); reflexivity.
Qed.

Lemma Run_launched server token location m0 :
  launched env machine server token location →
  Run env machine (init m0) =
    bind (upgrade env token location) (session env)
      (push (init m0)
         [EDo sshClient (sshRequest server machine token); EReadAll]
         [DBodyClose]).
Proof.
  intros H. unfold Run. unfold bind at 1.
  now rewrite (launched_launch server token location (init m0) H).
Qed.

Lemma Run_last_dial server token location urls d m0 :
  launched env machine server token location →
  last_dial env token location urls d →
  Run env machine (init m0) =
    bind (finish_dial d) (session env)
      (push (init m0)
         (EDo sshClient (sshRequest server machine token) :: EReadAll ::
          map (fun u => EDial u (authHeader token)) urls)
         [DBodyClose]).
Proof.
  intros H Hd. rewrite (Run_launched server token location m0 H).
  unfold bind.
  set (s1 := push (init m0) _ [DBodyClose]).
  destruct Hd as [Hno|r1 u e1 Hr H302 Hloc].
  - rewrite (upgrade_single token location s1 Hno).
    subst s1. rewrite push_push. reflexivity.
  - rewrite (upgrade_retry token location r1 u e1 s1 Hr H302 Hloc).
    subst s1. rewrite push_push. reflexivity.
Qed.

Lemma Run_nil_location server token location r1 e1 m0 :
  launched env machine server token location →
  dial_resp (dial env 0 location (authHeader token)) = Some r1 →
  StatusCode r1 = 302 →
  Location (resolve env) r1 = (None, e1) →
  Run env machine (init m0) =
    (Panicked nilDeref,
     push (init m0)
       [EDo sshClient (sshRequest server machine token); EReadAll;
        EDial location (authHeader token)]
       [DBodyClose]).
Proof.
  intros H Hr H302 Hloc. rewrite (Run_launched server token location m0 H).
  unfold bind.
  set (s1 := push (init m0) _ [DBodyClose]).
  rewrite (upgrade_retry_nil token location r1 e1 s1 Hr H302 Hloc).
  subst s1. rewrite push_push. reflexivity.
Qed.

Lemma after_dial_failed d e s :
  dial_err d = Some e →
  bind (finish_dial d) (session env) s =
    (Return, push s [EPrint (e ++ nl)] []).
Proof.
  unfold dial_err, bind.
  destruct d as [c r|r|e']; cbn [dial_triple snd finish_dial]; congruence.
Qed.

Lemma after_dial_ok c r s :
  bind (finish_dial (DialOK c r)) (session env) s =
    session env c (push s [] [DConnClose c]).
Proof. reflexivity. Qed.

End SshPhases.

(** Facts on traces. *)

Section Traces.
Import Ssh.

Lemma existsb_pre (p : Event → bool) (es : list Event) :
  (∀ e, is_pre_event e = true → p e = false) →
  forallb is_pre_event es = true →
  existsb p es = false.
Proof.
  intros Hp. induction es as [|e es IH]; cbn [forallb existsb]; [reflexivity|].
  intros H. apply andb_prop in H as [He Hes].
  now rewrite (Hp e He), (IH Hes).
Qed.

Lemma pre_not_terminal e : is_pre_event e = true → is_terminal_event e = false.
Proof. now destruct e. Qed.

Lemma pre_not_socket_write e : is_pre_event e = true → is_socket_write e = false.
Proof. now destruct e. Qed.

Lemma pre_not_go e : is_pre_event e = true → is_EGo e = false.
Proof. now destruct e. Qed.

Lemma pre_not_task e : is_pre_event e = true → is_ETask e = false.
Proof. now destruct e. Qed.

Lemma pre_not_setraw e : is_pre_event e = true → is_ESetRaw e = false.
Proof. now destruct e. Qed.

Lemma tasks_no_dials es : forallb is_ETask es = true → dials es = [].
Proof.
  induction es as [|e es IH]; [reflexivity|]. cbn [forallb].
  intros H. apply andb_prop in H as [He Hes].
  destruct e; try discriminate. cbn. now apply IH.
Qed.

Lemma closes_no_dials ds : dials (map deferred_event ds) = [].
Proof. induction ds as [|[] ds IH]; cbn; auto. Qed.

Lemma dials_app tr tr' : dials (tr ++ tr') = (dials tr ++ dials tr')%list.
Proof. unfold dials. apply omap_app. Qed.

Lemma dials_map_EDial h urls :
  dials (map (fun u => EDial u h) urls) = map (fun u => (u, h)) urls.
Proof. induction urls as [|u urls IH]; cbn; [reflexivity|]. now f_equal. Qed.

End Traces.

(** ** Leaving the command *)

Section PreSession.
Import Http Ssh.

Lemma leave_return (A : Type) m0 es ds :
  existsb is_DReset ds = false →
  leave (@Return A, push (init m0) es ds) =
    (Returned, mkSt (es ++ map deferred_event ds) [] m0 m0).
Proof.
  intros Hds. cbn [leave]. rewrite runDefers_eq. unfold push, init.
  cbn [trace defers term saved app]. now rewrite app_nil_r, Hds.
Qed.

Lemma leave_panic (A : Type) e m0 es ds :
  existsb is_DReset ds = false →
  leave (@Panicked A e, push (init m0) es ds) =
    (Crashed e, mkSt (es ++ map deferred_event ds) [] m0 m0).
Proof.
  intros Hds. cbn [leave]. rewrite runDefers_eq. unfold push, init.
  cbn [trace defers term saved app]. now rewrite app_nil_r, Hds.
Qed.

End PreSession.

(** ** The command from end to end *)

Section EndToEnd.
Import Http Ssh.

Lemma session_end_eq env c es m0 :
  leave (session env c (push (init m0) es [DConnClose c; DBodyClose])) =
    session_end env c es m0.
Proof.
  rewrite leave_session. unfold session_end.
  destruct (consoleCurrent env) as [e|].
  { rewrite runDefers_eq. unfold push, init. cbn. now rewrite <- !app_assoc. }
  destruct (setRaw env) as [e|].
  { rewrite runDefers_eq. unfold push, init. cbn. now rewrite <- !app_assoc. }
  destruct (resizeWrite env) as [e|].
  { rewrite runDefers_eq. unfold push, sized, init, first_resize, teardown. cbn.
    now rewrite <- !app_assoc. }
  destruct (snd (until_fire (schedule env))).
  - rewrite runDefers_eq. unfold push, sized, init, first_resize, teardown. cbn.
    rewrite <- !app_assoc. cbn [app]. now rewrite <- !app_assoc.
  - unfold push, sized, init, first_resize. cbn. now rewrite <- !app_assoc.
Qed.

(** Every run either ends before the session, having touched only the
    network and the standard output, or ends as [session_end] says. *)
Lemma sshCmd_cases env machine m0 :
  (∃ c es, forallb is_pre_event es = true ∧
           sshCmd env machine m0 = session_end env c es m0) ∨
  (∃ out es ds,
      sshCmd env machine m0 =
        (out, mkSt (es ++ map deferred_event ds) [] m0 m0) ∧
      out ≠ Waiting ∧
      forallb is_pre_event es = true ∧
      existsb is_DReset ds = false).
Proof.
  unfold sshCmd.
  destruct (Run_cases env machine (init m0))
    as [(c & es & -> & Hes)|(es & ds & [->|[e ->]] & Hes & Hds)].
  - left. exists c, es. split; [exact Hes|apply session_end_eq].
  - right. exists Returned, es, ds. rewrite leave_return by exact Hds. easy.
  - right. exists (Crashed e), es, ds. rewrite leave_panic by exact Hds. easy.
Qed.

Lemma sshCmd_upgrade_failed env machine m0 server token location urls d e :
  launched env machine server token location →
  last_dial env token location urls d →
  dial_err d = Some e →
  sshCmd env machine m0 =
    (Returned,
     mkSt (EDo sshClient (sshRequest server machine token) :: EReadAll ::
           map (fun u => EDial u (authHeader token)) urls ++
           [EPrint (e ++ nl); EBodyClose]) [] m0 m0).
Proof.
  intros Hl Hd He. unfold sshCmd.
  rewrite (Run_last_dial env machine server token location urls d m0 Hl Hd).
  rewrite (after_dial_failed env d e _ He), push_push.
  rewrite leave_return by reflexivity. cbn. now rewrite <- !app_assoc.
Qed.

Lemma sshCmd_upgraded env machine m0 server token location urls c r :
  launched env machine server token location →
  last_dial env token location urls (DialOK c r) →
  sshCmd env machine m0 =
    session_end env c
      (EDo sshClient (sshRequest server machine token) :: EReadAll ::
       map (fun u => EDial u (authHeader token)) urls) m0.
Proof.
  intros Hl Hd. unfold sshCmd.
  rewrite (Run_last_dial env machine server token location urls _ m0 Hl Hd).
  rewrite after_dial_ok, push_push, app_nil_r. apply session_end_eq.
Qed.

Lemma sshCmd_nil_location env machine m0 server token location r1 e1 :
  launched env machine server token location →
  dial_resp (dial env 0 location (authHeader token)) = Some r1 →
  StatusCode r1 = 302 →
  Location (resolve env) r1 = (None, e1) →
  sshCmd env machine m0 =
    (Crashed nilDeref,
     mkSt [EDo sshClient (sshRequest server machine token); EReadAll;
           EDial location (authHeader token); EBodyClose] [] m0 m0).
Proof.
  intros Hl Hr H302 Hloc. unfold sshCmd.
  rewrite (Run_nil_location env machine server token location r1 e1 m0
             Hl Hr H302 Hloc).
  now rewrite leave_panic by reflexivity.
Qed.

(** C4: one error before the session is neither reported nor returned
    from.  When the upgrade is answered with a 302 from which no location
    comes, line 144 drops the error of [resp.Location] and line 145 calls
    [String] on the nil URL: the command panics on the nil dereference.  It
    has dialled once and printed nothing; the body is closed on the way
    out, nothing was asked of the terminal and its mode is what it was. *)
Theorem unfollowable_redirect_panics env machine m0 server token location r1 e1 :
  launched env machine server token location →
  dial_resp (dial env 0 location (authHeader token)) = Some r1 →
  StatusCode r1 = 302 →
  Location (resolve env) r1 = (None, e1) →
  ∃ st,
    sshCmd env machine m0 = (Crashed nilDeref, st) ∧
    trace st =
      [EDo sshClient (sshRequest server machine token); EReadAll;
       EDial location (authHeader token); EBodyClose] ∧
    prints (trace st) = [] ∧
    existsb is_terminal_event (trace st) = false ∧
    term st = m0.
Proof.
  intros Hl Hr H302 Hloc. unfold sshCmd.
  rewrite (Run_nil_location env machine server token location r1 e1 m0
             Hl Hr H302 Hloc).
  rewrite leave_panic by reflexivity.
  eexists. split; [reflexivity|]. cbn [trace term app map].
  repeat split.
Qed.

(** Nothing after the upgrade dials. *)
Lemma session_end_dials env c es m0 :
  dials (trace (snd (session_end env c es m0))) = dials es.
Proof.
  unfold session_end, teardown, first_resize, goes.
  destruct (consoleCurrent env), (setRaw env), (resizeWrite env),
    (snd (until_fire (schedule env)));
    cbn [snd trace]; rewrite ?dials_app;
    rewrite ?(tasks_no_dials _ (until_fire_tasks (schedule env)));
    cbn; rewrite ?app_nil_r; try reflexivity.
Qed.

End EndToEnd.

(** ** The terminal and the first frame *)

Section Session.
Import Http Ssh.

Lemma In_existsb (p : Event → bool) (x : Event) (tr : list Event) :
  In x tr → p x = true → existsb p tr = true.
Proof. intros Hin Hp. apply existsb_exists. eauto. Qed.

Lemma closes_not (p : Event → bool) ds :
  p EBodyClose = false → (∀ c, p (EConnClose c) = false) →
  existsb is_DReset ds = false →
  existsb p (map deferred_event ds) = false.
Proof.
  intros Hb Hc. induction ds as [|[ |c| ] ds IH]; cbn; intros H;
    rewrite ?Hb, ?Hc; auto; discriminate.
Qed.

Lemma tasks_not (p : Event → bool) es :
  (∀ t a, p (ETask t a) = false) →
  forallb is_ETask es = true → existsb p es = false.
Proof.
  intros Hp. induction es as [|e es IH]; cbn; [reflexivity|].
  intros H. apply andb_prop in H as [He Hes].
  destruct e; try discriminate. now rewrite Hp, IH.
Qed.

(** Where the first event with [p] sits when the front has none. *)
Lemma split_behind (p : Event → bool) A B pre x post :
  (A ++ B = pre ++ x :: post)%list →
  p x = true → existsb p A = false →
  ∃ mid, pre = (A ++ mid)%list ∧ B = (mid ++ x :: post)%list.
Proof.
  revert pre. induction A as [|a A IH]; intros pre E Hx HA.
  - exists pre. auto.
  - cbn in HA. apply orb_false_elim in HA as [Ha HA].
    destruct pre as [|b pre]; cbn in E; injection E as -> E.
    + congruence.
    + destruct (IH pre E Hx HA) as (mid & -> & ->). now exists mid.
Qed.

Lemma find_front (p : Event → bool) A B x :
  existsb p A = false → find p (A ++ x :: B) = (if p x then Some x else find p B).
Proof.
  induction A as [|a A IH]; cbn; [reflexivity|].
  intros H. apply orb_false_elim in H as [-> HA]. auto.
Qed.

Ltac norm_app :=
  unfold goes, teardown;
  repeat first [rewrite <- app_assoc | progress cbn [app]].

(** C3: when raw mode was entered and the command leaves, it leaves by
    returning, the terminal is back in the mode it had, and the trace ends
    with the restore followed by the two closes. *)
Theorem terminal_restored env machine m0 out st :
  sshCmd env machine m0 = (out, st) →
  setRaw env = None →
  In ESetRaw (trace st) →
  out ≠ Waiting →
  out = Returned ∧
  term st = m0 ∧
  ∃ pre mid c, trace st = (pre ++ ESetRaw :: mid ++ teardown c)%list.
Proof.
  intros E Hraw Hin Hout.
  destruct (sshCmd_cases env machine m0)
    as [(c & es & Hes & E')|(out' & es & ds & E' & _ & Hes & Hds)];
    rewrite E' in E.
  - unfold session_end in E. rewrite Hraw in E.
    assert (Hno : existsb is_ESetRaw es = false)
      by (apply existsb_pre; [exact pre_not_setraw|exact Hes]).
    destruct (consoleCurrent env) as [e|].
    { injection E as <- <-. cbn [trace] in Hin.
      apply (In_existsb is_ESetRaw) in Hin; [|reflexivity].
      rewrite existsb_app, Hno in Hin. discriminate. }
    destruct (resizeWrite env) as [e|].
    { injection E as <- <-. cbn [trace term]. repeat split.
      exists (es ++ [ECurrent])%list,
             [ENewTerminal; first_resize env c; EPrint (e ++ nl)], c.
      norm_app. reflexivity. }
    destruct (snd (until_fire (schedule env))).
    + injection E as <- <-. cbn [trace term]. repeat split.
      exists (es ++ [ECurrent])%list,
             ([ENewTerminal; first_resize env c] ++ goes c ++
              fst (until_fire (schedule env)) ++ [ERecvDone])%list, c.
      norm_app. reflexivity.
    + injection E as <- <-. now destruct Hout.
  - injection E as <- <-. cbn [trace] in Hin.
    apply (In_existsb is_ESetRaw) in Hin; [|reflexivity].
    rewrite existsb_app in Hin.
    rewrite (existsb_pre is_ESetRaw es pre_not_setraw Hes) in Hin.
    rewrite closes_not in Hin; auto; discriminate.
Qed.

(** The remote side closes a running session: the terminal is cooked again. *)
Lemma terminal_restored_witness :
  let r := sshCmd (Scenario.world ("tok", None) Scenario.dial_direct None
                     Scenario.remote_close) "m1" Cooked in
  fst r = Returned ∧
  term (snd r) = Cooked ∧
  ∃ pre mid c, trace (snd r) = (pre ++ ESetRaw :: mid ++ teardown c)%list.
Proof.
  apply (terminal_restored
           (Scenario.world ("tok", None) Scenario.dial_direct None
              Scenario.remote_close) "m1" Cooked).
  - apply surjective_pairing.
  - reflexivity.
  - vm_compute. tauto.
  - vm_compute. discriminate.
Defined.

Lemma existsb_middle (p : Event → bool) pre x post :
  p x = true → existsb p (pre ++ x :: post) = true.
Proof.
  intros Hx. rewrite existsb_app. cbn. rewrite Hx. apply orb_true_r.
Qed.

Lemma find_none (p : Event → bool) tr :
  existsb p tr = false → find p tr = None.
Proof.
  induction tr as [|x tr IH]; cbn; [reflexivity|].
  intros H. apply orb_false_elim in H as [-> Htr]. auto.
Qed.

Lemma calm_pre es : forallb is_pre_event es = true → calm es.
Proof.
  intros Hes. repeat split; apply existsb_pre; auto using
    pre_not_socket_write, pre_not_go, pre_not_task.
Qed.

Lemma calm_app tr tr' : calm tr → calm tr' → calm (tr ++ tr').
Proof.
  intros (H1 & H2 & H3) (H1' & H2' & H3'). unfold calm.
  now rewrite !existsb_app, H1, H2, H3, H1', H2', H3'.
Qed.

Lemma calm_closes ds : calm (map deferred_event ds).
Proof. induction ds as [|[] ds IH]; cbn; easy. Qed.

(** The three shapes of a trace: nothing written to the socket; the first
    resize failed; the first resize went out and the goroutines started. *)
Lemma trace_shape env machine m0 out st :
  sshCmd env machine m0 = (out, st) →
  calm (trace st) ∨
  (∃ c front e,
      resizeWrite env = Some e ∧ out = Returned ∧ term st = m0 ∧ calm front ∧
      trace st =
        (front ++ first_resize env c :: EPrint (e ++ nl) :: teardown c)%list) ∨
  (∃ c front tasks back,
      resizeWrite env = None ∧ calm front ∧
      forallb is_ETask tasks = true ∧ calm back ∧
      trace st =
        (front ++ first_resize env c :: goes c ++ tasks ++ back)%list).
Proof.
  intros E.
  destruct (sshCmd_cases env machine m0)
    as [(c & es & Hes & E')|(out' & es & ds & E' & _ & Hes & Hds)];
    rewrite E' in E.
  2:{ injection E as <- <-. left. cbn [trace].
      apply calm_app; [now apply calm_pre|apply calm_closes]. }
  apply calm_pre in Hes. unfold session_end in E.
  destruct (consoleCurrent env) as [e0|].
  { injection E as <- <-. left. cbn [trace]. now apply calm_app. }
  destruct (setRaw env) as [e0|].
  { injection E as <- <-. left. cbn [trace]. now apply calm_app. }
  destruct (resizeWrite env) as [e|].
  { injection E as <- <-. right; left.
    exists c, (es ++ [ECurrent; ESetRaw; ENewTerminal])%list, e.
    cbn [trace term]. repeat split; try (now apply calm_app).
    norm_app. reflexivity. }
  right; right.
  exists c, (es ++ [ECurrent; ESetRaw; ENewTerminal])%list,
         (fst (until_fire (schedule env))).
  destruct (snd (until_fire (schedule env))); injection E as <- <-.
  - exists (ERecvDone :: teardown c). cbn [trace].
    repeat split; try (now apply calm_app); try apply until_fire_tasks.
    norm_app. reflexivity.
  - exists []. cbn [trace].
    repeat split; try (now apply calm_app); try apply until_fire_tasks.
    norm_app. now rewrite app_nil_r.
Qed.

(** C2: the first write on the socket is the resize frame with the sampled
    geometry; a goroutine is started only behind that write and only when
    it succeeded, and the tasks run behind the four [go] statements; when
    the write fails the command prints the error and returns with the
    terminal restored, and no goroutine was started. *)
Theorem first_write_is_resize env machine m0 out st :
  sshCmd env machine m0 = (out, st) →
  (∀ e, find is_socket_write (trace st) = Some e →
        ∃ c, e = ESockWrite c writeWait
                   (Resize (fst (terminalSize env)) (snd (terminalSize env)))) ∧
  (∀ pre g post, trace st = (pre ++ EGo g :: post)%list →
        resizeWrite env = None ∧
        ∃ c, find is_socket_write pre = Some (first_resize env c)) ∧
  (∀ pre t a post, trace st = (pre ++ ETask t a :: post)%list →
        ∃ c front mid, pre = (front ++ goes c ++ mid)%list) ∧
  (∀ e, resizeWrite env = Some e →
        existsb is_socket_write (trace st) = true →
        out = Returned ∧
        existsb is_EGo (trace st) = false ∧
        existsb is_ETask (trace st) = false ∧
        last (prints (trace st)) = Some (e ++ nl) ∧
        term st = m0).
Proof.
  intros E.
  destruct (trace_shape env machine m0 out st E)
    as [(Hw & Hg & Ht)
       |[(c & front & e & Hres & -> & Hterm & (Hw & Hg & Ht) & ->)
        |(c & front & tasks & back & Hres & (Hw & Hg & Ht) & Htasks
            & (Hbw & Hbg & Hbt) & ->)]].
  - (* nothing was written *)
    repeat split.
    + intros e He. rewrite find_none in He by exact Hw. discriminate.
    + exfalso. rewrite H, existsb_middle in Hg by reflexivity. discriminate.
    + exfalso. rewrite H, existsb_middle in Hg by reflexivity. discriminate.
    + intros pre t a post H.
      exfalso. rewrite H, existsb_middle in Ht by reflexivity. discriminate.
    + congruence.
    + congruence.
    + congruence.
    + congruence.
    + congruence.
  - (* the first resize failed *)
    assert (HG : existsb is_EGo
                   (front ++ first_resize env c :: EPrint (e ++ nl) :: teardown c)
                 = false) by (now rewrite existsb_app, Hg).
    assert (HT : existsb is_ETask
                   (front ++ first_resize env c :: EPrint (e ++ nl) :: teardown c)
                 = false) by (now rewrite existsb_app, Ht).
    repeat split.
    + intros e' He. rewrite find_front in He by exact Hw. cbn in He.
      injection He as <-. now exists c.
    + exfalso. rewrite H, existsb_middle in HG by reflexivity. discriminate.
    + exfalso. rewrite H, existsb_middle in HG by reflexivity. discriminate.
    + intros pre t a post H.
      exfalso. rewrite H, existsb_middle in HT by reflexivity. discriminate.
    + exact HG.
    + exact HT.
    + replace (front ++ first_resize env c :: EPrint (e ++ nl) :: teardown c)%list
        with ((front ++ [first_resize env c; EPrint (e ++ nl)]) ++ teardown c)%list
        by (norm_app; reflexivity).
      unfold prints. rewrite !omap_app. cbn. rewrite app_nil_r.
      rewrite last_snoc. congruence.
    + exact Hterm.
  - (* the session ran *)
    repeat split.
    + intros e' He. rewrite find_front in He by exact Hw. cbn in He.
      injection He as <-. now exists c.
    + exact Hres.
    + replace (front ++ first_resize env c :: goes c ++ tasks ++ back)%list
        with ((front ++ [first_resize env c]) ++ goes c ++ tasks ++ back)%list
        in H by (now rewrite <- app_assoc).
      apply (split_behind is_EGo) in H as (mid & -> & _); [|reflexivity|].
      2:{ now rewrite existsb_app, Hg. }
      exists c. rewrite <- !app_assoc. cbn [app].
      now rewrite find_front by exact Hw.
    + intros pre t a post H.
      replace (front ++ first_resize env c :: goes c ++ tasks ++ back)%list
        with ((front ++ first_resize env c :: goes c) ++ tasks ++ back)%list
        in H by (now rewrite <- app_assoc).
      apply (split_behind is_ETask) in H as (mid & -> & _); [|reflexivity|].
      2:{ now rewrite existsb_app, Ht. }
      exists c, (front ++ [first_resize env c])%list, mid.
      now rewrite <- !app_assoc.
    + congruence.
    + congruence.
    + congruence.
    + congruence.
    + congruence.
Qed.

(** A run that asked nothing of the terminal leaves its mode as it was;
    this covers the crashes before the session as well. *)
Lemma untouched_terminal_keeps_mode env machine m0 out st :
  sshCmd env machine m0 = (out, st) →
  existsb is_terminal_event (trace st) = false →
  term st = m0.
Proof.
  intros E Hno.
  destruct (sshCmd_cases env machine m0)
    as [(c & es & Hes & E')|(out' & es & ds & E' & _ & Hes & Hds)];
    rewrite E' in E.
  - exfalso. unfold session_end in E.
    destruct (consoleCurrent env), (setRaw env), (resizeWrite env),
      (snd (until_fire (schedule env)));
      injection E as <- <-; cbn [trace] in Hno;
      rewrite existsb_app in Hno; apply orb_false_elim in Hno as [_ Hno];
      discriminate Hno.
  - now injection E as <- <-.
Qed.

End Session.

(** ** The session request and the upgrade *)

Section Upgrade.
Import Http Ssh.

Lemma Get_location (h : Header) :
  Get h "location" =
    match h !! "Location" with Some (v :: _) => v | _ => EmptyString end.
Proof. reflexivity. Qed.

Lemma session_end_prefix env c es m0 :
  ∃ rest, trace (snd (session_end env c es m0)) = (es ++ rest)%list.
Proof.
  unfold session_end.
  destruct (consoleCurrent env), (setRaw env), (resizeWrite env),
    (snd (until_fire (schedule env))); cbn [snd trace]; eauto.
Qed.

(** The first dial either leads to a deciding dial or is a 302 whose
    location does not resolve. *)
Lemma dial_paths env token location :
  (∃ rest d, last_dial env token location (location :: rest) d) ∨
  (∃ r1 e1,
      dial_resp (dial env 0 location (authHeader token)) = Some r1 ∧
      StatusCode r1 = 302 ∧
      Location (resolve env) r1 = (None, e1)).
Proof.
  destruct (dial_resp (dial env 0 location (authHeader token))) as [r1|] eqn:Hr.
  - destruct (Z.eq_dec (StatusCode r1) 302) as [H302|Hne].
    + destruct (Location (resolve env) r1) as [[u|] e1] eqn:Hloc.
      * left. exists [u], (dial env 1 u (authHeader token)).
        now apply (second_dial env token location r1 u e1).
      * right. now exists r1, e1.
    + left. exists [], (dial env 0 location (authHeader token)).
      apply first_dial. rewrite Hr. congruence.
  - left. exists [], (dial env 0 location (authHeader token)).
    apply first_dial. rewrite Hr. congruence.
Qed.

Lemma dial_result_cases d :
  (∃ c r, d = DialOK c r) ∨ (∃ e, dial_err d = Some e).
Proof. destruct d; cbn; eauto. Qed.

(** After the deciding dial nothing dials again. *)
Lemma dials_after_last_dial env machine m0 server token location urls d :
  launched env machine server token location →
  last_dial env token location urls d →
  dials (trace (snd (sshCmd env machine m0))) =
    map (fun u => (u, authHeader token)) urls.
Proof.
  intros Hl Hd.
  destruct (dial_result_cases d) as [(c & r & ->)|(e & He)].
  - rewrite (sshCmd_upgraded env machine m0 server token location urls c r Hl Hd).
    rewrite session_end_dials. cbn. apply dials_map_EDial.
  - rewrite (sshCmd_upgrade_failed env machine m0 server token location urls d e
               Hl Hd He).
    cbn. rewrite dials_app, dials_map_EDial. cbn. apply app_nil_r.
Qed.

(** C7: the request is a POST to the ssh action of the machine under the
    normalized server address, with the token as Authorization header and no
    body, sent by a client whose redirect check always answers "use the last
    response"; the body of the response is read, and the address dialled
    next is the first value of its Location header. *)
Theorem session_request env machine m0 server token :
  setMistContext env = None →
  getServer env = (server, None) →
  parseURL env (sshPath server machine) = None →
  getToken env = (token, None) →
  let req :=
    {| Method := "POST";
       URL := normalizeServer server ++ "api/v2/machines/" ++ machine
                ++ "/actions/ssh";
       ReqHeader := {[ "Authorization" := [token] ]};
       Body := None |} in
  (∀ r via, CheckRedirect sshClient r via = ErrUseLastResponse) ∧
  (∃ rest, trace (snd (sshCmd env machine m0)) = EDo sshClient req :: rest) ∧
  (∀ resp,
      clientDo env sshClient req = inl resp →
      readAll env resp = None →
      ∃ rest,
        trace (snd (sshCmd env machine m0)) =
          EDo sshClient req :: EReadAll ::
          EDial (match RespHeader resp !! "Location" with
                 | Some (v :: _) => v
                 | _ => EmptyString
                 end) {[ "Authorization" := [token] ]} :: rest).
Proof.
  intros Hc Hs Hp Ht req.
  change req with (sshRequest server machine token).
  assert (Hthird : ∀ resp,
      clientDo env sshClient (sshRequest server machine token) = inl resp →
      readAll env resp = None →
      ∃ rest,
        trace (snd (sshCmd env machine m0)) =
          EDo sshClient (sshRequest server machine token) :: EReadAll ::
          EDial (Get (RespHeader resp) "location") (authHeader token) :: rest).
  { intros resp Hd Hr.
    assert (Hl : launched env machine server token
                   (Get (RespHeader resp) "location"))
      by (exists resp; auto 10).
    destruct (dial_paths env token (Get (RespHeader resp) "location"))
      as [(more & d & Hlast)|(r1 & e1 & Hr1 & H302 & Hloc)].
    - destruct (dial_result_cases d) as [(c & r & ->)|(e & He)].
      + rewrite (sshCmd_upgraded env machine m0 server token _ _ c r Hl Hlast).
        destruct (session_end_prefix env c
                    (EDo sshClient (sshRequest server machine token) :: EReadAll ::
                     map (fun u => EDial u (authHeader token))
                       (Get (RespHeader resp) "location" :: more)) m0)
          as [rest ->].
        cbn. eauto.
      + rewrite (sshCmd_upgrade_failed env machine m0 server token _ _ d e
                   Hl Hlast He).
        cbn. eauto.
    - rewrite (sshCmd_nil_location env machine m0 server token _ r1 e1
                 Hl Hr1 H302 Hloc).
      cbn. eauto. }
  split; [reflexivity|]. split; [|exact Hthird].
  destruct (clientDo env sshClient (sshRequest server machine token))
    as [resp|e] eqn:Hd.
  - destruct (readAll env resp) as [e|] eqn:Hr.
    + unfold sshCmd, Run, bind.
      rewrite (launch_read_error env machine server token resp e _
                 Hc Hs Hp Ht Hd Hr).
      rewrite leave_return by reflexivity. cbn. eauto.
    + destruct (Hthird resp eq_refl Hr) as [rest ->]. eauto.
  - unfold sshCmd, Run, bind.
    rewrite (launch_do_error env machine server token e _ Hc Hs Hp Ht Hd).
    rewrite leave_return by reflexivity. cbn. eauto.
Qed.

(** C9: without a response of status 302 the first dial is the only one,
    and its error, if any, is printed and ends the command before the
    terminal is touched (so for 301, 303, 307 and 308); with a 302 only the
    URL that [Location] yields is looked at, never its error: a URL is
    dialled, and with none the command dies on the nil URL, printing
    nothing. *)
Theorem retry_only_on_302 env machine m0 server token location :
  launched env machine server token location →
  let d1 := dial env 0 location (authHeader token) in
  let r := sshCmd env machine m0 in
  ((∀ r1, dial_resp d1 = Some r1 → StatusCode r1 ≠ 302) →
     dials (trace (snd r)) = [(location, authHeader token)] ∧
     ∀ e, dial_err d1 = Some e →
          fst r = Returned ∧
          prints (trace (snd r)) = [e ++ nl] ∧
          existsb is_terminal_event (trace (snd r)) = false) ∧
  (∀ r1, dial_resp d1 = Some r1 → StatusCode r1 = 302 →
     match fst (Location (resolve env) r1) with
     | Some u =>
         dials (trace (snd r)) =
           [(location, authHeader token); (u, authHeader token)]
     | None =>
         fst r = Crashed nilDeref ∧
         dials (trace (snd r)) = [(location, authHeader token)] ∧
         prints (trace (snd r)) = [] ∧
         existsb is_terminal_event (trace (snd r)) = false
     end).
Proof.
  intros Hl d1 r. subst r. split.
  - intros Hno.
    pose proof (first_dial env token location Hno) as Hlast. fold d1 in Hlast.
    split.
    + now rewrite (dials_after_last_dial env machine m0 server token location
                     [location] d1 Hl Hlast).
    + intros e He.
      rewrite (sshCmd_upgrade_failed env machine m0 server token location
                 [location] d1 e Hl Hlast He).
      now cbn.
  - intros r1 Hr1 H302.
    destruct (Location (resolve env) r1) as [[u|] e1] eqn:Hloc; cbn [fst].
    + pose proof (second_dial env token location r1 u e1 Hr1 H302 Hloc) as Hlast.
      now rewrite (dials_after_last_dial env machine m0 server token location
                     [location; u] _ Hl Hlast).
    + rewrite (sshCmd_nil_location env machine m0 server token location r1 e1
                 Hl Hr1 H302 Hloc).
      now cbn.
Qed.

(** C1, amended: when the upgrade is answered with status 302 and a location
    that resolves, the command dials exactly once more, that location, with
    the same Authorization header; if that second dial is again answered
    with a handshake response, a redirect or any other, the command prints
    the handshake error and returns with the terminal untouched. *)
Theorem upgrade_follows_one_302 env machine m0 server token location r1 u e1 :
  launched env machine server token location →
  dial_resp (dial env 0 location (authHeader token)) = Some r1 →
  StatusCode r1 = 302 →
  Location (resolve env) r1 = (Some u, e1) →
  let r := sshCmd env machine m0 in
  dials (trace (snd r)) =
    [(location, authHeader token); (u, authHeader token)] ∧
  ∀ r2, dial env 1 u (authHeader token) = DialBadHandshake r2 →
        fst r = Returned ∧
        dials (trace (snd r)) =
          [(location, authHeader token); (u, authHeader token)] ∧
        prints (trace (snd r)) = [ErrBadHandshake ++ nl] ∧
        existsb is_terminal_event (trace (snd r)) = false ∧
        term (snd r) = m0.
Proof.
  intros Hl Hr1 H302 Hloc r. subst r.
  pose proof (second_dial env token location r1 u e1 Hr1 H302 Hloc) as Hlast.
  split.
  - now rewrite (dials_after_last_dial env machine m0 server token location
                   [location; u] _ Hl Hlast).
  - intros r2 Hd2.
    assert (He : dial_err (dial env 1 u (authHeader token)) = Some ErrBadHandshake)
      by (now rewrite Hd2).
    rewrite (sshCmd_upgrade_failed env machine m0 server token location
               [location; u] _ ErrBadHandshake Hl Hlast He).
    now cbn.
Qed.

End Upgrade.

(** ** The command in the worlds of [Scenario] *)

Section Runs.
Import Http Ssh Scenario.

Lemma world_launched token dialf write sch :
  launched (world (token, None) dialf write sch) "m1" "mist.io" token
    "ws://mist.io/ws/1".
Proof. exists handshake. repeat split. Qed.

(** C1 as worded fails: the upgrade is answered with the redirect status
    301 and a location at which a dial would succeed, and the command does
    not dial again. *)
Lemma redirect_301_not_followed :
  ¬ follows_redirects
      (world ("tok", None) (dial_moved_once 301) None remote_close) "m1".
Proof.
  intros H.
  destruct (H "mist.io" "tok" "ws://mist.io/ws/1" (moved 301 "ws://mist.io/ws/1"))
    as [u Hu].
  - apply world_launched.
  - reflexivity.
  - unfold is_redirect. cbn. lia.
  - vm_compute in Hu. discriminate Hu.
Qed.

(** The upgrade is answered with a 302 to [/ws/2], and so is the dial of
    [/ws/2]: two dials, the error printed, the terminal left alone. *)
Lemma upgrade_follows_one_302_witness :
  let env := world ("tok", None) dial_moved_always None remote_close in
  let r := sshCmd env "m1" Cooked in
  launched env "m1" "mist.io" "tok" "ws://mist.io/ws/1" ∧
  dials (trace (snd r)) =
    [("ws://mist.io/ws/1", authHeader "tok");
     ("ws://mist.io/ws/2", authHeader "tok")] ∧
  ∀ r2, dial env 1 "ws://mist.io/ws/2" (authHeader "tok") = DialBadHandshake r2 →
        fst r = Returned ∧
        dials (trace (snd r)) =
          [("ws://mist.io/ws/1", authHeader "tok");
           ("ws://mist.io/ws/2", authHeader "tok")] ∧
        prints (trace (snd r)) = [ErrBadHandshake ++ nl] ∧
        existsb is_terminal_event (trace (snd r)) = false ∧
        term (snd r) = Cooked.
Proof.
  intros env r. split; [apply world_launched|].
  apply (upgrade_follows_one_302 env "m1" Cooked "mist.io" "tok"
           "ws://mist.io/ws/1" (moved 302 "ws://mist.io/ws/1")
           "ws://mist.io/ws/2" None).
  - apply world_launched.
  - reflexivity.
  - reflexivity.
  - reflexivity.
Defined.

(** A 301 is not followed; a 302 without a location kills the command. *)
Lemma retry_only_on_302_witness :
  let env := world ("tok", None) (dial_moved_once 301) None remote_close in
  let r := sshCmd env "m1" Cooked in
  launched env "m1" "mist.io" "tok" "ws://mist.io/ws/1" ∧
  dials (trace (snd r)) = [("ws://mist.io/ws/1", authHeader "tok")] ∧
  fst r = Returned ∧
  prints (trace (snd r)) = [ErrBadHandshake ++ nl].
Proof.
  intros env r.
  pose proof (retry_only_on_302 env "m1" Cooked "mist.io" "tok"
                "ws://mist.io/ws/1" (world_launched _ _ _ _)) as [H1 _].
  destruct H1 as [Hd He].
  { intros r1 [= <-]. cbn. lia. }
  destruct (He ErrBadHandshake eq_refl) as (Hf & Hp & _).
  split; [apply world_launched|]. auto.
Defined.

(** The request and the dial in a world where the socket opens at once. *)
Lemma session_request_witness :
  let env := world ("tok", None) dial_direct None remote_close in
  let req :=
    {| Method := "POST";
       URL := "http://mist.io/api/v2/machines/m1/actions/ssh";
       ReqHeader := {[ "Authorization" := ["tok"] ]};
       Body := None |} in
  ∃ rest,
    trace (snd (sshCmd env "m1" Cooked)) =
      EDo sshClient req :: EReadAll ::
      EDial "ws://mist.io/ws/1" {[ "Authorization" := ["tok"] ]} :: rest.
Proof.
  intros env req.
  destruct (session_request env "m1" Cooked "mist.io" "tok"
              eq_refl eq_refl eq_refl eq_refl) as (_ & _ & H).
  exact (H handshake eq_refl eq_refl).
Defined.

(** The first frame of a session that the remote side closes later. *)
Lemma first_write_is_resize_witness :
  let env := world ("tok", None) dial_direct None remote_close in
  let r := sshCmd env "m1" Cooked in
  find is_socket_write (trace (snd r)) =
    Some (ESockWrite 1%nat writeWait (Resize 80 24)) ∧
  ∀ e, find is_socket_write (trace (snd r)) = Some e →
       ∃ c, e = ESockWrite c writeWait (Resize 80 24).
Proof.
  intros env r. split; [reflexivity|].
  exact (proj1 (first_write_is_resize env "m1" Cooked (fst r) (snd r)
                  (surjective_pairing r))).
Defined.

(** The upgrade is answered with a 302 that has no Location header: the
    command dies after one dial, with nothing printed. *)
Lemma unfollowable_redirect_panics_witness :
  let env := world ("tok", None) dial_moved_nowhere None remote_close in
  ∃ st,
    sshCmd env "m1" Cooked = (Crashed nilDeref, st) ∧
    trace st =
      [EDo sshClient (sshRequest "mist.io" "m1" "tok"); EReadAll;
       EDial "ws://mist.io/ws/1" (authHeader "tok"); EBodyClose] ∧
    prints (trace st) = [] ∧
    existsb is_terminal_event (trace st) = false ∧
    term st = Cooked.
Proof.
  intros env.
  eapply (unfollowable_redirect_panics env "m1" Cooked "mist.io" "tok"
            "ws://mist.io/ws/1" (mkResponse 302 ∅ "ws://mist.io/ws/1")).
  - apply world_launched.
  - reflexivity.
  - reflexivity.
  - reflexivity.
Defined.

(** The scenario of the spec from end to end: the session request names
    [/ws/1], the upgrade there is answered with a 302 to [/ws/2], the dial of
    [/ws/2] opens the socket; the resize goes out, the goroutines start and
    run until the remote side closes and the inbound pump fires; the
    terminal is restored, then the socket and the body are closed. *)
Example end_to_end :
  sshCmd (world ("tok", None) (dial_moved_once 302) None remote_close)
         "m1" Cooked =
    (Returned,
     mkSt
       [EDo sshClient (sshRequest "mist.io" "m1" "tok");
        EReadAll;
        EDial "ws://mist.io/ws/1" (authHeader "tok");
        EDial "ws://mist.io/ws/2" (authHeader "tok");
        ECurrent; ESetRaw; ENewTerminal;
        ESockWrite 1%nat writeWait (Resize 80 24);
        EGo (handleTerminalResize 1%nat writeWait);
        EGo (readFromRemoteStdout 1%nat pongWait);
        EGo (writeToRemoteStdin 1%nat writeWait);
        EGo (sendPingMessages 1%nat writeWait pingPeriod);
        ETask KeepAlive (TSockWrite Ping);
        ETask InboundPump TSockRead;
        ETask InboundPump (TStdout "$ ");
        ETask OutboundPump TStdin;
        ETask OutboundPump (TSockWrite (Data "l"));
        ETask InboundPump TSockRead;
        ETask InboundPump TFire;
        ERecvDone;
        EReset; EConnClose 1%nat; EBodyClose]
       [] Cooked Cooked).
Proof. vm_compute. reflexivity. Qed.

(** The same world with a terminal whose first resize cannot be written. *)
Example resize_write_fails :
  let r := sshCmd (world ("tok", None) dial_direct (Some "write: broken pipe")
                     remote_close) "m1" Cooked in
  fst r = Returned ∧
  prints (trace (snd r)) = ["write: broken pipe" ++ nl] ∧
  existsb is_EGo (trace (snd r)) = false ∧
  term (snd r) = Cooked.
Proof. vm_compute. auto. Qed.

End Runs.

(** ** The metering diff *)

Section DiffFacts.
Import Http Metering.

Variable F : Type.
Variable ParseFloat : string → F + Error.
Variable fsub : F → F → F.
Variable formatF : F → string.
Variables machineMetricsStart machineMetricsEnd : Outer.
Variable metricsSet : gmap string string.

Abbreviation visit :=
  (visit F ParseFloat fsub formatF machineMetricsStart machineMetricsEnd metricsSet).
Abbreviation diffValue :=
  (diffValue F ParseFloat fsub formatF machineMetricsStart metricsSet).
Abbreviation calculateDiffs :=
  (calculateDiffs F ParseFloat fsub formatF machineMetricsStart machineMetricsEnd
     metricsSet).
Abbreviation range_order := (range_order machineMetricsEnd).
Abbreviation separate := (separate machineMetricsStart machineMetricsEnd).
Abbreviation visited :=
  (visited F ParseFloat fsub formatF machineMetricsStart machineMetricsEnd
     metricsSet).

(** A visit leaves the store alone, and then the entry already is what the
    claim's words give, or it overwrites exactly that entry with it. *)
Lemma visit_spec (σ : Store) out m k :
  ∃ out',
    (visit (σ, out) m k = (σ, out') ∧
     ∀ l v, machineMetricsEnd !! m = Some l → cell σ l k = Some v →
            diffValue σ m k v = v) ∨
    (∃ l metrics v,
        machineMetricsEnd !! m = Some l ∧ σ !! l = Some metrics ∧
        metrics !! k = Some v ∧
        visit (σ, out) m k =
          (<[l := <[k := diffValue σ m k v]> metrics]> σ, out')).
Proof.
  unfold Metering.visit, Metering.diffValue.
  destruct (machineMetricsEnd !! m) as [l|] eqn:Hl.
  2:{ exists out. left. split; [reflexivity|]. intros; discriminate. }
  destruct (cell σ l k) as [valueEnd|] eqn:Hcell.
  2:{ exists out. left. split; [reflexivity|].
      intros l' v [= <-]. congruence. }
  destruct (String.eqb (default EmptyString (metricsSet !! k)) "counter").
  2:{ exists out. left. split; [reflexivity|]. auto. }
  cbn [negb].
  destruct (machineMetricsStart !! m) as [ls|].
  2:{ exists out. left. split; [reflexivity|]. auto. }
  destruct (cell σ ls k) as [valueStart|].
  2:{ exists out. left. split; [reflexivity|]. auto. }
  destruct (ParseFloat valueStart) as [s|e].
  2:{ eexists. left. split; [reflexivity|].
      intros l' v [= <-] Hv. now destruct (ParseFloat v). }
  destruct (ParseFloat valueEnd) as [e|err] eqn:Hpe.
  2:{ eexists. left. split; [reflexivity|].
      intros l' v [= <-] Hv. rewrite Hcell in Hv. injection Hv as <-.
      now rewrite Hpe. }
  exists out. right. unfold cell in Hcell.
  destruct (σ !! l) as [metrics|] eqn:Hσ; [|discriminate]. cbn in Hcell.
  exists l, metrics, valueEnd. rewrite Hpe. cbn [default]. auto.
Qed.

(** The words of the claim read the start snapshot only. *)
Lemma diffValue_ext (σ σ0 : Store) m k v :
  (∀ m ls, machineMetricsStart !! m = Some ls → σ !! ls = σ0 !! ls) →
  diffValue σ m k v = diffValue σ0 m k v.
Proof.
  intros H. unfold Metering.diffValue.
  destruct (machineMetricsStart !! m) as [ls|] eqn:Hs; [|reflexivity].
  unfold cell. now rewrite (H m ls Hs).
Qed.

Lemma visited_start σ0 : visited σ0 [] σ0.
Proof.
  repeat split; auto.
  intros m l k _. destruct (cell σ0 l k); cbn; [|reflexivity].
  now rewrite decide_False by apply not_elem_of_nil.
Qed.

Lemma visited_step σ0 vs σ out m k :
  separate →
  visited σ0 vs σ →
  (m, k) ∉ vs →
  visited σ0 (vs ++ [(m, k)])%list (fst (visit (σ, out) m k)).
Proof.
  intros [Hinj Hdisj] (Hdom & Hframe & Hcells) Hnew.
  assert (Hstart : ∀ m ls, machineMetricsStart !! m = Some ls → σ !! ls = σ0 !! ls).
  { intros m' ls Hs. apply Hframe. intros m'' He. exact (Hdisj m' m'' ls Hs He). }
  assert (Hmem : ∀ m' k', (m', k') ≠ (m, k) →
            ((m', k') ∈ (vs ++ [(m, k)])%list ↔ (m', k') ∈ vs)).
  { intros m' k' Hne. rewrite elem_of_app, list_elem_of_singleton. tauto. }
  assert (Hhere : (m, k) ∈ (vs ++ [(m, k)])%list).
  { rewrite elem_of_app, list_elem_of_singleton. tauto. }
  destruct (visit_spec σ out m k)
    as [out' [[-> Hsame]|(l & metrics & v & Hl & Hσ & Hv & ->)]]; cbn [fst].
  - repeat split; try apply Hdom; auto.
    intros m' l' k' Hl'. pose proof (Hcells m' l' k' Hl') as Hc. rewrite Hc.
    destruct (cell σ0 l' k') as [v|] eqn:Hc0;
      cbn [fmap option_fmap option_map] in *; [|reflexivity].
    f_equal.
    destruct (decide ((m', k') = (m, k))) as [[= -> ->]|Hne].
    + rewrite (decide_True _ _ Hhere), (decide_False _ _ Hnew).
      rewrite (decide_False _ _ Hnew) in Hc.
      rewrite <- (diffValue_ext σ σ0) by exact Hstart.
      symmetry. now apply (Hsame l' v Hl').
    + destruct (decide ((m', k') ∈ vs)) as [Hin|Hnin].
      * now rewrite decide_True by (apply Hmem; auto).
      * now rewrite decide_False by (rewrite Hmem; auto).
  - assert (Hcell : cell σ l k = Some v) by (unfold cell; now rewrite Hσ).
    assert (Hcell0 : cell σ0 l k = Some v).
    { specialize (Hcells m l k Hl). rewrite Hcell in Hcells.
      destruct (cell σ0 l k); cbn [fmap option_fmap option_map] in Hcells;
        [|discriminate].
      rewrite (decide_False _ _ Hnew) in Hcells. congruence. }
    split; [|split].
    + intros l'. rewrite <- Hdom.
      destruct (decide (l' = l)) as [->|Hne].
      * rewrite lookup_insert_eq, Hσ. split; eauto.
      * now rewrite lookup_insert_ne by auto.
    + intros l' Hout. rewrite lookup_insert_ne; [now apply Hframe|].
      intros <-. now apply (Hout m).
    + intros m' l' k' Hl'.
      destruct (decide (l' = l)) as [->|Hne].
      * assert (m' = m) by (eapply Hinj; eauto). subst m'.
        unfold cell at 1. rewrite lookup_insert_eq. cbn [mbind option_bind].
        destruct (decide (k' = k)) as [->|Hk].
        -- rewrite lookup_insert_eq, Hcell0. cbn [fmap option_fmap option_map].
           rewrite (decide_True _ _ Hhere).
           now rewrite (diffValue_ext σ σ0) by exact Hstart.
        -- rewrite lookup_insert_ne by auto.
           specialize (Hcells m l k' Hl'). unfold cell at 1 in Hcells.
           rewrite Hσ in Hcells. cbn [mbind option_bind] in Hcells.
           rewrite Hcells.
           destruct (cell σ0 l k'); cbn [fmap option_fmap option_map];
             [|reflexivity].
           f_equal.
           assert (Hne : (m, k') ≠ (m, k)) by congruence.
           destruct (decide ((m, k') ∈ vs)) as [Hin|Hnin].
           ++ now rewrite decide_True by (apply Hmem; auto).
           ++ now rewrite decide_False by (rewrite Hmem; auto).
      * unfold cell at 1. rewrite lookup_insert_ne by auto.
        fold (cell σ l' k'). rewrite (Hcells m' l' k' Hl').
        destruct (cell σ0 l' k'); cbn [fmap option_fmap option_map];
          [|reflexivity].
        f_equal.
        assert (Hne' : (m', k') ≠ (m, k)).
        { intros [= -> ->]. congruence. }
        destruct (decide ((m', k') ∈ vs)) as [Hin|Hnin].
        -- now rewrite decide_True by (apply Hmem; auto).
        -- now rewrite decide_False by (rewrite Hmem; auto).
Qed.

Abbreviation visit_pair :=
  (fun (w : World) (mk : string * string) => visit w (fst mk) (snd mk)).

Lemma visits_visited σ0 todo :
  separate →
  ∀ vs σ out,
    visited σ0 vs σ →
    NoDup (vs ++ todo) →
    visited σ0 (vs ++ todo) (fst (fold_left visit_pair todo (σ, out))).
Proof.
  intros Hsep. induction todo as [|[m k] todo IH]; intros vs σ out Hv Hnd.
  - now rewrite app_nil_r.
  - cbn [fold_left fst snd].
    assert (Hnew : (m, k) ∉ vs).
    { apply NoDup_app in Hnd as (_ & Hdis & _). intros Hin.
      apply (Hdis _ Hin). left. }
    pose proof (visited_step σ0 vs σ out m k Hsep Hv Hnew) as Hstep.
    destruct (visit (σ, out) m k) as [σ1 out1]. cbn [fst] in Hstep.
    replace (vs ++ (m, k) :: todo)%list with ((vs ++ [(m, k)]) ++ todo)%list
      by (now rewrite <- app_assoc).
    apply IH; [exact Hstep|]. now rewrite <- app_assoc.
Qed.

Lemma rangeMetrics_visits w m ks :
  rangeMetrics F ParseFloat fsub formatF machineMetricsStart machineMetricsEnd
    metricsSet w m ks =
  fold_left visit_pair (pair m <$> ks) w.
Proof.
  unfold rangeMetrics. revert w.
  induction ks as [|k ks IH]; intros w; cbn; [reflexivity|apply IH].
Qed.

Lemma calculateDiffs_flat order w :
  fst (calculateDiffs order w) = fold_left visit_pair (flat order) w.
Proof.
  unfold Metering.calculateDiffs, flat. cbn [fst]. revert w.
  induction order as [|[m ks] order IH]; intros w; [reflexivity|].
  cbn [fold_left fst snd]. rewrite bind_cons, fold_left_app, IH. cbn [fst snd].
  now rewrite rangeMetrics_visits.
Qed.

Lemma elem_of_flat order m k :
  (m, k) ∈ flat order ↔ ∃ ks, (m, ks) ∈ order ∧ k ∈ ks.
Proof.
  unfold flat. rewrite list_elem_of_bind. split.
  - intros ([m' ks] & Hin & Hmo). cbn in Hin.
    apply list_elem_of_fmap in Hin as (k' & [= -> ->] & Hk). eauto.
  - intros (ks & Hmo & Hk). exists (m, ks). split; [|exact Hmo].
    cbn. apply list_elem_of_fmap. eauto.
Qed.

Lemma NoDup_flat order :
  NoDup (order.*1) →
  (∀ m ks, (m, ks) ∈ order → NoDup ks) →
  NoDup (flat order).
Proof.
  induction order as [|[m ks] order IH]; intros Hnd Hks; [constructor|].
  cbn in Hnd. apply NoDup_cons in Hnd as [Hm Hnd].
  unfold flat. rewrite bind_cons. fold (flat order). cbn [fst snd].
  apply NoDup_app. split; [|split].
  - apply NoDup_fmap_2; [intros ? ? [=]; congruence|].
    apply (Hks m ks). left.
  - intros [m' k'] Hin Hin'.
    apply list_elem_of_fmap in Hin as (k & [= -> ->] & _).
    apply elem_of_flat in Hin' as (ks' & Hmo & _).
    apply Hm. apply list_elem_of_fmap. exists (m, ks'). auto.
  - apply IH; [exact Hnd|]. intros m' ks' Hin. apply (Hks m' ks'). now right.
Qed.

(** Every store has an order to walk the end snapshot in: the function is
    never without a run. *)
Lemma range_order_exists (σ : Store) : ∃ order, range_order σ order.
Proof.
  exists ((fun ml : string * loc =>
             (fst ml, (map_to_list (default ∅ (σ !! snd ml))).*1))
            <$> map_to_list machineMetricsEnd).
  assert (Hfst : ((fun ml : string * loc =>
                     (fst ml, (map_to_list (default ∅ (σ !! snd ml))).*1))
                    <$> map_to_list machineMetricsEnd).*1
                 = (map_to_list machineMetricsEnd).*1).
  { rewrite <- list_fmap_compose. now apply list_fmap_ext. }
  split; [|split].
  - rewrite Hfst. apply NoDup_fst_map_to_list.
  - intros m. rewrite Hfst. split.
    + intros Hin. apply list_elem_of_fmap in Hin as ([m' l] & -> & Hin).
      apply elem_of_map_to_list in Hin. cbn. eauto.
    + intros [l Hl]. apply list_elem_of_fmap. exists (m, l).
      split; [reflexivity|]. now apply elem_of_map_to_list.
  - intros m ks Hin.
    apply list_elem_of_fmap in Hin as ([m' l] & [= -> ->] & Hin).
    apply elem_of_map_to_list in Hin. cbn [fst snd].
    split; [apply NoDup_fst_map_to_list|].
    intros l' Hl' k. assert (l' = l) by congruence. subst l'.
    unfold cell. destruct (σ !! l) as [im|]; cbn [default mbind option_bind].
    + split.
      * intros Hk. apply list_elem_of_fmap in Hk as ([k' v] & -> & Hk).
        apply elem_of_map_to_list in Hk. cbn. eauto.
      * intros [v Hv]. apply list_elem_of_fmap. exists (k, v).
        split; [reflexivity|]. now apply elem_of_map_to_list.
    + rewrite map_to_list_empty. cbn. split; [intros H; inversion H|].
      intros [v Hv]. discriminate.
Qed.

(** C10, amended: [calculateDiffs] returns the map it was given as end
    snapshot and rewrites the inner maps reached through it in place; when
    no inner map is shared, each entry of those becomes the formatted
    difference exactly when the metric is a counter, the start snapshot has
    the machine and the metric, and both values parse, and stays as it was
    otherwise; every other map of the store, those of the start snapshot
    among them, is as it was. *)
Theorem calculateDiffs_separate (σ : Store) out order :
  separate →
  range_order σ order →
  let r := calculateDiffs order (σ, out) in
  let σ' := fst (fst r) in
  snd r = machineMetricsEnd ∧
  (∀ m l k, machineMetricsEnd !! m = Some l →
            cell σ' l k = diffValue σ m k <$> cell σ l k) ∧
  (∀ l, (∀ m, machineMetricsEnd !! m ≠ Some l) → σ' !! l = σ !! l) ∧
  (∀ m l, machineMetricsStart !! m = Some l → σ' !! l = σ !! l) ∧
  (∀ l, is_Some (σ' !! l) ↔ is_Some (σ !! l)).
Proof.
  intros Hsep (Hnd & Hkeys & Hks) r σ'. subst σ' r.
  rewrite calculateDiffs_flat.
  assert (Hflat : NoDup (flat order)).
  { apply NoDup_flat; [exact Hnd|]. intros m ks Hin. now apply (Hks m ks). }
  destruct (visits_visited σ (flat order) Hsep [] σ out (visited_start σ) Hflat)
    as (Hdom & Hframe & Hcells).
  cbn [app] in *.
  split; [reflexivity|]. split; [|split; [exact Hframe|split; [|exact Hdom]]].
  - intros m l k Hl. rewrite (Hcells m l k Hl).
    destruct (cell σ l k) as [v|] eqn:Hc;
      cbn [fmap option_fmap option_map]; [|reflexivity].
    f_equal. apply decide_True. apply elem_of_flat.
    assert (Hm : m ∈ order.*1) by (apply Hkeys; eauto).
    apply list_elem_of_fmap in Hm as ([m' ks] & -> & Hmo). cbn [fst] in *.
    exists ks. split; [exact Hmo|].
    apply (proj2 (Hks m' ks Hmo) l Hl k). rewrite Hc. eauto.
  - intros m l Hs. apply Hframe. intros m' He.
    destruct Hsep as [_ Hdisj]. exact (Hdisj m m' l Hs He).
Qed.

End DiffFacts.

(** ** The metering diff on one machine with one counter *)

Section DiffRuns.
Import Http Metering.

Lemma is_Some_snapshot l m : is_Some (snapshot l !! m) ↔ m = "m1".
Proof.
  unfold snapshot. rewrite lookup_singleton_is_Some. split; congruence.
Qed.

Lemma snapshot_Some l m l' : snapshot l !! m = Some l' → m = "m1" ∧ l' = l.
Proof.
  unfold snapshot. intros H. apply lookup_singleton_Some in H as [<- <-]. auto.
Qed.

Lemma one_visit_order (σ : Store) l :
  σ !! l = Some {[ "cpu" := "5" ]} ∨ σ !! l = Some {[ "cpu" := "12" ]} →
  range_order (snapshot l) σ one_visit.
Proof.
  intros Hσ. split; [|split].
  - cbn. apply NoDup_singleton.
  - intros m. cbn. rewrite list_elem_of_singleton, is_Some_snapshot. tauto.
  - intros m ks Hin. apply list_elem_of_singleton in Hin as [= -> ->].
    split; [apply NoDup_singleton|].
    intros l' Hl k. apply snapshot_Some in Hl as [_ ->].
    rewrite list_elem_of_singleton. unfold cell.
    destruct Hσ as [-> | ->]; cbn [mbind option_bind];
      rewrite lookup_singleton_is_Some; split; congruence.
Qed.

(** C10 as worded fails: called with one map as both snapshots, the
    function overwrites the counter of the start snapshot with the
    difference of the value with itself. *)
Lemma shared_snapshot_modified :
  ¬ start_never_modified Z parseWhole Z.sub formatWhole
      (snapshot 1) (snapshot 1) counters.
Proof.
  intros H.
  specialize (H store_shared [] one_visit
                (one_visit_order store_shared 1 (or_introl eq_refl))
                "m1" 1%positive eq_refl).
  apply (f_equal (fun o => o ≫= (.!! "cpu"))) in H.
  vm_compute in H. discriminate H.
Qed.

Lemma apart_separate : separate (snapshot 1) (snapshot 2).
Proof.
  split.
  - intros m1 m2 l H1 H2.
    apply snapshot_Some in H1 as [-> _]. apply snapshot_Some in H2 as [-> _].
    reflexivity.
  - intros m1 m2 l H1 H2.
    apply snapshot_Some in H1 as [_ ->]. apply snapshot_Some in H2 as [_ [=]].
Qed.

(** Two snapshots with an inner map each: the counter of the end snapshot
    becomes the difference, the start snapshot keeps its value. *)
Lemma calculateDiffs_separate_witness :
  let r := calculateDiffs Z parseWhole Z.sub formatWhole
             (snapshot 1) (snapshot 2) counters one_visit (store_apart, []) in
  separate (snapshot 1) (snapshot 2) ∧
  range_order (snapshot 2) store_apart one_visit ∧
  snd r = snapshot 2 ∧
  cell (fst (fst r)) 2 "cpu" = Some "7.000000" ∧
  cell (fst (fst r)) 1 "cpu" = Some "5".
Proof.
  intros r.
  assert (Hord : range_order (snapshot 2) store_apart one_visit)
    by (apply one_visit_order; right; reflexivity).
  destruct (calculateDiffs_separate Z parseWhole Z.sub formatWhole
              (snapshot 1) (snapshot 2) counters store_apart [] one_visit
              apart_separate Hord) as (Hret & Hcells & _ & Hstart & _).
  subst r.
  split; [exact apart_separate|]. split; [exact Hord|]. split; [exact Hret|].
  split.
  - rewrite (Hcells "m1" 2%positive "cpu" eq_refl). reflexivity.
  - unfold cell. rewrite (Hstart "m1" 1%positive eq_refl). reflexivity.
Defined.

End DiffRuns.

Section ResourceFacts.
Import GoStrings Http Resources.

Lemma HasPrefix_empty (s : string) : HasPrefix s EmptyString = true.
Proof. now destruct s. Qed.

Lemma HasPrefix_cons (c a : ascii) (s p : string) :
  HasPrefix (String c s) (String a p) = Ascii.eqb c a && HasPrefix s p.
Proof.
  unfold HasPrefix, len. cbn [String.length substring String.eqb Nat.leb].
  destruct (Ascii.eqb c a), (String.length p <=? String.length s)%nat;
    reflexivity.
Qed.

Lemma HasPrefix_of_empty (a : ascii) (p : string) :
  HasPrefix EmptyString (String a p) = false.
Proof. reflexivity. Qed.

(** The plural of a type, as a literal. *)
Ltac plurals := cbv beta iota delta [String.append] in *.

(** Split on the first letter of an argument against the initials in use. *)
Ltac initials a :=
  destruct (Ascii.eqb_spec "c" a) as [<-|?];
  [|destruct (Ascii.eqb_spec "m" a) as [<-|?];
  [|destruct (Ascii.eqb_spec "v" a) as [<-|?];
  [|destruct (Ascii.eqb_spec "n" a) as [<-|?];
  [|destruct (Ascii.eqb_spec "z" a) as [<-|?];
  [|destruct (Ascii.eqb_spec "i" a) as [<-|?];
  [|destruct (Ascii.eqb_spec "k" a) as [<-|?];
  [|destruct (Ascii.eqb_spec "r" a) as [<-|?]]]]]]]].

Lemma isValidIn_getIn types arg :
  Forall (fun r => r ≠ EmptyString) types →
  if isValidIn types arg
  then In (getIn types arg) types ∧ HasPrefix (getIn types arg ++ "s") arg = true
  else getIn types arg = EmptyString.
Proof.
  induction types as [|r types IH]; intros Hne; cbn [isValidIn getIn];
    [reflexivity|].
  apply Forall_cons in Hne as [Hr Hne].
  destruct (HasPrefix (r ++ "s") arg) eqn:Hp.
  - split; [now left|exact Hp].
  - specialize (IH Hne). destruct (isValidIn types arg); [|exact IH].
    destruct IH as [Hin Hpre]. split; [now right|exact Hpre].
Qed.

Lemma resourceTypes_named : Forall (fun r => r ≠ EmptyString) resourceTypes.
Proof. repeat constructor; discriminate. Qed.

(** X1: [isValidResourceType] and [getResourceType] agree: a valid argument
    resolves to a type of the table whose plural starts with it, and any
    other argument resolves to the empty string. *)
Theorem valid_resolves (arg : string) :
  (isValidResourceType arg = true ∧
   In (getResourceType arg) resourceTypes ∧
   HasPrefix (getResourceType arg ++ "s") arg = true) ∨
  (isValidResourceType arg = false ∧ getResourceType arg = EmptyString).
Proof.
  unfold isValidResourceType, getResourceType.
  pose proof (isValidIn_getIn resourceTypes arg resourceTypes_named) as H.
  destruct (isValidIn resourceTypes arg); [left|right]; tauto.
Qed.

(** The initial of a type whose plural starts with a non-empty argument. *)
Lemma plural_initial r a p :
  In r resourceTypes →
  HasPrefix (r ++ "s") (String a p) = true →
  String a EmptyString = substring 0 1 r.
Proof.
  intros Hin Hp. cbn in Hin.
  repeat (destruct Hin as [<-|Hin]; [plurals; rewrite HasPrefix_cons in Hp;
    apply andb_prop in Hp as [Hp _]; apply Ascii.eqb_eq in Hp; now subst|]).
  destruct Hin.
Qed.

(** X2: an abbreviation is never ambiguous: a non-empty argument is the start of
    the plural of at most one type. *)
Theorem abbreviation_unambiguous (arg r1 r2 : string) :
  arg ≠ EmptyString →
  In r1 resourceTypes → In r2 resourceTypes →
  HasPrefix (r1 ++ "s") arg = true →
  HasPrefix (r2 ++ "s") arg = true →
  r1 = r2.
Proof.
  intros Hne H1 H2 Hp1 Hp2. destruct arg as [|a p]; [congruence|].
  pose proof (plural_initial r1 a p H1 Hp1) as E1.
  pose proof (plural_initial r2 a p H2 Hp2) as E2.
  rewrite E1 in E2. clear -H1 H2 E2. cbn in H1, H2.
  repeat (destruct H1 as [<-|H1]);
    repeat (destruct H2 as [<-|H2]);
    try reflexivity; try discriminate E2; try contradiction.
Qed.

Lemma abbreviation_unambiguous_witness :
  "mach" ≠ EmptyString ∧ getResourceType "mach" = "machine".
Proof.
  split; [discriminate|].
  apply (abbreviation_unambiguous "mach" (getResourceType "mach") "machine").
  - discriminate.
  - vm_compute. tauto.
  - vm_compute. tauto.
  - reflexivity.
  - reflexivity.
Defined.

(** Unfold the two lookups and the chain on an argument with first letter
    [a], and decide every test on that letter. *)
Ltac by_initial a :=
  unfold completionCall, getArgs, isValidResourceType, getResourceType,
    dispatch, resourceTypes in *;
  cbn [isValidIn getIn] in *; plurals;
  rewrite ?HasPrefix_cons in *;
  initials a; cbn [Ascii.eqb Bool.eqb andb] in *.

(** X3: the [rules] arm of [Run] is dead: whatever [Args] lets through, the
    chain never calls a rule operation. *)
Theorem rules_never_dispatched (args : list string) (c : ApiCall) :
  getArgs args = None →
  dispatch args = Call c →
  call_resource c ≠ "rule".
Proof.
  destruct args as [|[|a p] rest].
  - discriminate.
  - intros _. cbn. destruct rest as [|id [|]]; intros [= <-]; discriminate.
  - by_initial a; intros Hv; try discriminate Hv;
      repeat match goal with
             | |- context [HasPrefix ?s p] => destruct (HasPrefix s p)
             end;
      try discriminate Hv;
      destruct rest as [|id [|]]; cbn [arm]; intros [= <-]; discriminate.
Qed.

Lemma rules_never_dispatched_witness :
  getArgs ["key"; "k1"] = None ∧
  dispatch ["key"; "k1"] = Call (MistApiV2GetKey "k1") ∧
  call_resource (MistApiV2GetKey "k1") ≠ "rule".
Proof.
  split; [reflexivity|]. split; [reflexivity|].
  apply (rules_never_dispatched ["key"; "k1"]); reflexivity.
Defined.

(** X4: [get rules] is turned away: a non-empty start of [rules] is not a valid
    resource type, and [Args] answers with the error that names it. *)
Theorem rules_rejected (arg : string) (rest : list string) :
  arg ≠ EmptyString →
  HasPrefix "rules" arg = true →
  getArgs (arg :: rest) = Some ("invalid resource type specified: " ++ arg).
Proof.
  intros Hne Hp. destruct arg as [|a p]; [congruence|].
  rewrite HasPrefix_cons in Hp. apply andb_prop in Hp as [Ha _].
  apply Ascii.eqb_eq in Ha. subst a.
  unfold getArgs, isValidResourceType, resourceTypes. cbn [isValidIn]. plurals.
  rewrite !HasPrefix_cons. reflexivity.
Qed.

Lemma rules_rejected_witness :
  getArgs ["rules"] = Some "invalid resource type specified: rules".
Proof.
  apply (rules_rejected "rules" []); [discriminate|reflexivity].
Defined.

(** X5: zones pass [Args] and are served by nothing: on a non-empty start of
    [zones] the chain of [Run] makes no call, and neither does the completion
    of a second argument. *)
Theorem zones_accepted_not_served (arg : string) (rest : list string) :
  arg ≠ EmptyString →
  HasPrefix "zones" arg = true →
  getArgs (arg :: rest) = None ∧
  dispatch (arg :: rest) = NoCall ∧
  completionCall [arg] = None.
Proof.
  intros Hne Hp. destruct arg as [|a p]; [congruence|].
  rewrite HasPrefix_cons in Hp. apply andb_prop in Hp as [Ha Hp].
  apply Ascii.eqb_eq in Ha. subst a.
  unfold completionCall, getArgs, isValidResourceType, getResourceType,
    dispatch, resourceTypes.
  cbn [isValidIn getIn]. plurals. rewrite !HasPrefix_cons.
  cbn [Ascii.eqb Bool.eqb andb]. rewrite Hp. repeat split.
Qed.

Lemma zones_accepted_not_served_witness :
  getArgs ["zones"; "z1"] = None ∧
  dispatch ["zones"; "z1"] = NoCall ∧
  completionCall ["zones"] = None.
Proof.
  apply (zones_accepted_not_served "zones" ["z1"]); [discriminate|reflexivity].
Defined.

Section RunFacts.
Variables Decoded Options : Type.
Variable zeroOptions : Options.
Variable api : ApiCall → option Decoded * Options * option Error.
Variable Format : option Decoded → Options → option Error.

Lemma arm_surplus get list_ (args : list string) :
  (3 <= length args)%nat → arm get list_ args = NoCall.
Proof.
  destruct args as [|a0 [|a1 [|a2 args]]]; cbn; intros H; try lia. reflexivity.
Qed.

(** X6: with three arguments or more [Run] calls no operation and hands the nil
    response with the zero options to the formatter. *)
Theorem surplus_arguments_format_nil (args : list string) :
  (3 <= length args)%nat →
  getRun Decoded Options zeroOptions api Format args =
    match Format None zeroOptions with
    | Some e =>
        (GExit,
         [GFormat Decoded Options None zeroOptions;
          GFatal Decoded Options ("Formatting failed: " ++ e)])
    | None => (GDone, [GFormat Decoded Options None zeroOptions])
    end.
Proof.
  intros Hlen.
  assert (Hd : dispatch args = NoCall).
  { unfold dispatch. destruct args as [|arg rest]; [cbn in Hlen; lia|].
    rewrite !arm_surplus by exact Hlen.
    repeat match goal with
           | |- context [if ?b then _ else _] => destruct b
           end; reflexivity. }
  unfold getRun. rewrite Hd. cbn. now destruct (Format None zeroOptions).
Qed.

Lemma arm_indexed get list_ (args : list string) :
  arm get list_ args = IndexPanic → False.
Proof. destruct args as [|a0 [|a1 [|a2 args]]]; discriminate. Qed.

Lemma dispatch_indexed (arg : string) (rest : list string) :
  dispatch (arg :: rest) = IndexPanic → False.
Proof.
  unfold dispatch.
  repeat match goal with
         | |- context [if ?b then _ else _] => destruct b
         end; try discriminate; apply arm_indexed.
Qed.

Lemma finish_ends called r :
  let res := finish Decoded Options Format called r in
  (fst res = GDone ∨ fst res = GExit) ∧
  ∃ e, snd res = (called ++ e)%list ∧
       Forall (fun ev => match ev with GCall _ _ _ => False | _ => True end) e.
Proof.
  destruct r as [[decoded o] [e|]]; cbn.
  - split; [now right|]. eexists. split; [reflexivity|]. repeat constructor.
  - destruct (Format decoded o); cbn.
    + split; [now right|]. eexists. split; [reflexivity|]. repeat constructor.
    + split; [now left|]. eexists. split; [reflexivity|]. repeat constructor.
Qed.

(** X7: [Run] reads [args[0]] without a look at the length, and never runs
    out of range: [Args] has turned the empty argument list away before.
    The command is refused, or it ends or exits after at most one call of
    the API, made before anything else. *)
Theorem getCmd_never_panics (args : list string) :
  match getCmd Decoded Options zeroOptions api Format args with
  | inl e => args = [] ∨ ∃ arg rest, args = arg :: rest ∧ isValidResourceType arg = false
  | inr (out, tr) =>
      (out = GDone ∨ out = GExit) ∧
      ∃ calls rest,
        tr = (calls ++ rest)%list ∧ (length calls <= 1)%nat ∧
        Forall (fun ev => match ev with GCall _ _ _ => False | _ => True end) rest
  end.
Proof.
  unfold getCmd, getArgs. destruct args as [|arg rest]; [now left|].
  destruct (isValidResourceType arg) eqn:Hv; [|right; eauto].
  unfold getRun. pose proof (dispatch_indexed arg rest) as Hd.
  destruct (dispatch (arg :: rest)) as [| |c]; [now destruct Hd| |].
  - destruct (finish_ends [] (None, zeroOptions, None)) as (Hout & e & He & Hall).
    destruct (finish _ _ _ _ _) as [out tr]. cbn [fst snd] in *.
    split; [exact Hout|]. exists [], e. split; [exact He|]. split; [cbn; lia|exact Hall].
  - destruct (finish_ends [GCall Decoded Options c] (api c)) as (Hout & e & He & Hall).
    destruct (finish _ _ _ _ _) as [out tr]. cbn [fst snd] in *.
    split; [exact Hout|]. exists [GCall Decoded Options c], e.
    split; [exact He|]. split; [cbn; lia|exact Hall].
Qed.

End RunFacts.

Lemma surplus_arguments_format_nil_witness :
  getRun unit unit tt (fun _ => (Some tt, tt, None)) (fun _ _ => None)
    ["clouds"; "c1"; "extra"] = (GDone, [GFormat unit unit None tt]).
Proof.
  apply (surplus_arguments_format_nil unit unit tt
           (fun _ => (Some tt, tt, None)) (fun _ _ => None)
           ["clouds"; "c1"; "extra"]).
  cbn. lia.
Defined.

(** X8: [Run] and [getResourceType] agree: with one or two arguments and a valid
    first argument that does not resolve to [zone], the chain calls an
    operation on the type [getResourceType] resolves to: the list operation
    on one argument, the get operation on the second argument on two. *)
Theorem dispatch_agrees (arg : string) (rest : list string) :
  isValidResourceType arg = true →
  (length rest <= 1)%nat →
  getResourceType arg ≠ "zone" →
  ∃ c, dispatch (arg :: rest) = Call c ∧
       call_resource c = getResourceType arg ∧
       call_id c = head rest.
Proof.
  intros Hv Hlen Hz.
  assert (Hrest : rest = [] ∨ ∃ id, rest = [id]).
  { destruct rest as [|id [|]]; cbn in Hlen; eauto; lia. }
  destruct arg as [|a p].
  - destruct Hrest as [->|[id ->]]; eexists; repeat split.
  - by_initial a; try discriminate Hv;
      repeat match goal with
             | H : context [HasPrefix ?s p] |- _ => destruct (HasPrefix s p)
             end;
      try discriminate Hv; try (now destruct Hz);
      destruct Hrest as [->|[id ->]]; eexists; repeat split.
Qed.

Lemma dispatch_agrees_witness :
  ∃ c, dispatch ["vol"; "v7"] = Call c ∧
       call_resource c = getResourceType "vol" ∧
       call_id c = Some "v7".
Proof.
  apply (dispatch_agrees "vol" ["v7"]).
  - reflexivity.
  - cbn. lia.
  - vm_compute. discriminate.
Defined.

(** X9: completing the second argument asks for the list of the type the first
    one resolves to, and asks nothing when that is [zone] or no type. *)
Theorem completion_agrees (arg : string) :
  match completionCall [arg] with
  | Some c => call_resource c = getResourceType arg ∧ call_id c = None
  | None => getResourceType arg = EmptyString ∨ getResourceType arg = "zone"
  end.
Proof.
  unfold completionCall, getResourceType.
  pose proof (isValidIn_getIn resourceTypes arg resourceTypes_named) as H.
  destruct (isValidIn resourceTypes arg); [|rewrite H; now left].
  destruct H as [Hin _].
  generalize dependent (getIn resourceTypes arg). intros r Hin. cbn in Hin.
  repeat (destruct Hin as [<-|Hin];
          [cbn; first [split; reflexivity|right; reflexivity]|]).
  destruct Hin.
Qed.

End ResourceFacts.

(** ** More on the metering diff *)

Section DiffMore.
Import Http Metering.

Variable F : Type.
Variable ParseFloat : string → F + Error.
Variable fsub : F → F → F.
Variable formatF : F → string.
Variables machineMetricsStart machineMetricsEnd : Outer.
Variable metricsSet : gmap string string.

Abbreviation visit' :=
  (visit F ParseFloat fsub formatF machineMetricsStart machineMetricsEnd metricsSet).
Abbreviation calculateDiffs' :=
  (calculateDiffs F ParseFloat fsub formatF machineMetricsStart machineMetricsEnd
     metricsSet).

(** A visit prints at most and leaves the store alone, or it overwrites one
    entry that exists, of a counter, of a machine the start snapshot has. *)
Lemma visit_writes (σ : Store) out m k :
  (∃ out', visit' (σ, out) m k = (σ, out') ∧
           (machineMetricsStart !! m = None → out' = out)) ∨
  (∃ l metrics v v',
      String.eqb (default EmptyString (metricsSet !! k)) "counter" = true ∧
      is_Some (machineMetricsStart !! m) ∧
      σ !! l = Some metrics ∧ metrics !! k = Some v ∧
      visit' (σ, out) m k = (<[l := <[k := v']> metrics]> σ, out)).
Proof.
  unfold Metering.visit.
  destruct (machineMetricsEnd !! m) as [l|]; [|left; eauto].
  destruct (cell σ l k) as [valueEnd|] eqn:Hcell; [|left; eauto].
  destruct (String.eqb (default EmptyString (metricsSet !! k)) "counter")
    eqn:Hcounter; cbn [negb]; [|left; eauto].
  destruct (machineMetricsStart !! m) as [ls|] eqn:Hs; [|left; eauto].
  destruct (cell σ ls k) as [valueStart|]; [|left; eauto].
  destruct (ParseFloat valueStart) as [s|e];
    [|left; eexists; split; [reflexivity|discriminate]].
  destruct (ParseFloat valueEnd) as [e|err];
    [|left; eexists; split; [reflexivity|discriminate]].
  right. unfold cell in Hcell.
  destruct (σ !! l) as [metrics|] eqn:Hσ; [|discriminate]. cbn in Hcell.
  exists l, metrics, valueEnd. eexists. cbn [default]. eauto 10.
Qed.

Abbreviation visit_pair' :=
  (fun (w : World) (mk : string * string) => visit' w (fst mk) (snd mk)).

(** What holds of the store before and after one visit holds before and
    after all of them. *)
Lemma visits_ind (P : Store → Store → Prop) :
  (∀ σ, P σ σ) →
  (∀ σ1 σ2 σ3, P σ1 σ2 → P σ2 σ3 → P σ1 σ3) →
  (∀ σ out m k, P σ (fst (visit' (σ, out) m k))) →
  ∀ vs σ out, P σ (fst (fold_left visit_pair' vs (σ, out))).
Proof.
  intros Hrefl Htrans Hstep. induction vs as [|[m k] vs IH]; intros σ out.
  - apply Hrefl.
  - cbn [fold_left fst snd]. pose proof (Hstep σ out m k) as H1.
    destruct (visit' (σ, out) m k) as [σ1 out1]. cbn [fst] in H1.
    exact (Htrans _ _ _ H1 (IH σ1 out1)).
Qed.

(** X10: [calculateDiffs] adds and removes nothing: whatever is shared and in
    whatever order it walks, the store holds the same maps afterwards and
    each of them has the same keys. *)
Theorem calculateDiffs_keeps_keys (σ : Store) out order :
  let σ' := fst (fst (calculateDiffs' order (σ, out))) in
  (∀ l, is_Some (σ' !! l) ↔ is_Some (σ !! l)) ∧
  (∀ l k, is_Some (cell σ' l k) ↔ is_Some (cell σ l k)).
Proof.
  cbn zeta.
  rewrite (calculateDiffs_flat F ParseFloat fsub formatF machineMetricsStart
             machineMetricsEnd metricsSet).
  apply (visits_ind (fun σ σ' =>
           (∀ l, is_Some (σ' !! l) ↔ is_Some (σ !! l)) ∧
           (∀ l k, is_Some (cell σ' l k) ↔ is_Some (cell σ l k)))).
  - intros σ0. split; reflexivity.
  - intros σ1 σ2 σ3 [H1 H1'] [H2 H2']. split.
    + intros l. now rewrite H2, H1.
    + intros l k. now rewrite H2', H1'.
  - intros σ0 out0 m k.
    destruct (visit_writes σ0 out0 m k)
      as [(out' & -> & _)|(l & metrics & v & v' & _ & _ & Hσ & Hv & ->)];
      cbn [fst]; [split; reflexivity|].
    split.
    + intros l'. destruct (decide (l' = l)) as [->|Hne].
      * rewrite lookup_insert_eq, Hσ. split; eauto.
      * now rewrite lookup_insert_ne by auto.
    + intros l' k'. unfold cell. destruct (decide (l' = l)) as [->|Hne].
      * rewrite lookup_insert_eq, Hσ. cbn [mbind option_bind].
        destruct (decide (k' = k)) as [->|Hk].
        -- rewrite lookup_insert_eq, Hv. split; eauto.
        -- now rewrite lookup_insert_ne by auto.
      * now rewrite lookup_insert_ne by auto.
Qed.

(** X11: a metric that [metricsSet] does not type as a counter keeps its value
    under every machine, whatever is shared and whatever the order. *)
Theorem calculateDiffs_keeps_gauges (σ : Store) out order k :
  default EmptyString (metricsSet !! k) ≠ "counter" →
  ∀ l, cell (fst (fst (calculateDiffs' order (σ, out)))) l k = cell σ l k.
Proof.
  intros Hk.
  rewrite (calculateDiffs_flat F ParseFloat fsub formatF machineMetricsStart
             machineMetricsEnd metricsSet).
  apply (visits_ind (fun σ σ' => ∀ l, cell σ' l k = cell σ l k)).
  - reflexivity.
  - intros σ1 σ2 σ3 H1 H2 l. now rewrite H2, H1.
  - intros σ0 out0 m k'.
    destruct (visit_writes σ0 out0 m k')
      as [(out' & -> & _)|(l & metrics & v & v' & Hc & _ & Hσ & Hv & ->)];
      cbn [fst]; [reflexivity|].
    assert (k ≠ k').
    { intros ->. apply String.eqb_eq in Hc. contradiction. }
    intros l'. unfold cell. destruct (decide (l' = l)) as [->|Hne].
    + rewrite lookup_insert_eq, Hσ. cbn [mbind option_bind].
      now rewrite lookup_insert_ne by auto.
    + now rewrite lookup_insert_ne by auto.
Qed.

End DiffMore.

Section DiffMoreRuns.
Import Http Metering.

(** X12: with no start snapshot nothing is changed and nothing is printed,
    whatever the end snapshot, the store and the order. *)
Theorem calculateDiffs_without_start
    (F : Type) (ParseFloat : string → F + Error) (fsub : F → F → F)
    (formatF : F → string) (machineMetricsEnd : Outer)
    (metricsSet : gmap string string) order (w : World) :
  calculateDiffs F ParseFloat fsub formatF ∅ machineMetricsEnd metricsSet order w
    = (w, machineMetricsEnd).
Proof.
  assert (Hvisit : ∀ w m k,
            visit F ParseFloat fsub formatF ∅ machineMetricsEnd metricsSet w m k
            = w).
  { intros [σ out] m k.
    destruct (visit_writes F ParseFloat fsub formatF ∅ machineMetricsEnd
                metricsSet σ out m k)
      as [(out' & E & Hout)|(l & metrics & v & v' & _ & [ls Hs] & _)].
    - rewrite E, Hout; [reflexivity|apply lookup_empty].
    - rewrite lookup_empty in Hs. discriminate. }
  assert (Hrange : ∀ ks w m,
            rangeMetrics F ParseFloat fsub formatF ∅ machineMetricsEnd metricsSet
              w m ks = w).
  { unfold rangeMetrics. induction ks as [|k ks IH]; intros w' m;
      cbn [fold_left]; [reflexivity|]. now rewrite Hvisit. }
  unfold calculateDiffs. f_equal. revert w.
  induction order as [|[m ks] order IH]; cbn [fold_left fst snd];
    intros w; [reflexivity|]. now rewrite Hrange.
Qed.

(** A gauge next to a counter in a call that shares the map: the counter is
    overwritten, the gauge is not. *)
Lemma calculateDiffs_keeps_gauges_witness :
  let metricsSet : gmap string string :=
    {[ "cpu" := "counter"; "load" := "gauge" ]} in
  let σ : Store := {[ 1%positive := {[ "cpu" := "5"; "load" := "3" ]} ]} in
  default EmptyString (metricsSet !! "load") ≠ "counter" ∧
  cell (fst (fst (calculateDiffs Z parseWhole Z.sub formatWhole
                    (snapshot 1) (snapshot 1) metricsSet
                    [("m1", ["cpu"; "load"])] (σ, []))))
       1 "load" = Some "3".
Proof.
  intros metricsSet σ.
  assert (H : default EmptyString (metricsSet !! "load") ≠ "counter")
    by (vm_compute; discriminate).
  split; [exact H|].
  rewrite (calculateDiffs_keeps_gauges Z parseWhole Z.sub formatWhole
             (snapshot 1) (snapshot 1) metricsSet σ []
             [("m1", ["cpu"; "load"])] "load" H).
  reflexivity.
Defined.

End DiffMoreRuns.

Section DiffOrder.
Import Http Metering.

Variable F : Type.
Variable ParseFloat : string → F + Error.
Variable fsub : F → F → F.
Variable formatF : F → string.
Variables machineMetricsStart machineMetricsEnd : Outer.
Variable metricsSet : gmap string string.

Abbreviation calculateDiffs'' :=
  (calculateDiffs F ParseFloat fsub formatF machineMetricsStart machineMetricsEnd
     metricsSet).
Abbreviation diffValue'' :=
  (diffValue F ParseFloat fsub formatF machineMetricsStart metricsSet).

Lemma reached_or_not (l : loc) :
  (∃ m, machineMetricsEnd !! m = Some l) ∨
  (∀ m, machineMetricsEnd !! m ≠ Some l).
Proof.
  destruct (decide (l ∈ (map_to_list machineMetricsEnd).*2)) as [Hin|Hnin].
  - left. apply list_elem_of_fmap in Hin as ([m l'] & -> & Hin).
    exists m. now apply elem_of_map_to_list.
  - right. intros m Hm. apply Hnin. apply list_elem_of_fmap.
    exists (m, l). split; [reflexivity|]. now apply elem_of_map_to_list.
Qed.

(** The store after a walk in a range order, with nothing shared. *)
Lemma calculateDiffs_cells (σ : Store) out order :
  separate machineMetricsStart machineMetricsEnd →
  range_order machineMetricsEnd σ order →
  let σ' := fst (fst (calculateDiffs'' order (σ, out))) in
  (∀ l, is_Some (σ' !! l) ↔ is_Some (σ !! l)) ∧
  (∀ l, (∀ m, machineMetricsEnd !! m ≠ Some l) → σ' !! l = σ !! l) ∧
  (∀ m l k, machineMetricsEnd !! m = Some l →
            cell σ' l k = diffValue'' σ m k <$> cell σ l k).
Proof.
  intros Hsep (Hnd & Hkeys & Hks). cbn zeta.
  rewrite (calculateDiffs_flat F ParseFloat fsub formatF machineMetricsStart
             machineMetricsEnd metricsSet).
  assert (Hflat : NoDup (flat order)).
  { apply NoDup_flat; [exact Hnd|]. intros m ks Hin. now apply (Hks m ks). }
  destruct (visits_visited F ParseFloat fsub formatF machineMetricsStart
              machineMetricsEnd metricsSet σ (flat order) Hsep [] σ out
              (visited_start F ParseFloat fsub formatF machineMetricsStart
                 machineMetricsEnd metricsSet σ) Hflat)
    as (Hdom & Hframe & Hcells).
  cbn [app] in *. split; [exact Hdom|]. split; [exact Hframe|].
  intros m l k Hl. rewrite (Hcells m l k Hl).
  destruct (cell σ l k) as [v|] eqn:Hc;
    cbn [fmap option_fmap option_map]; [|reflexivity].
  f_equal. apply decide_True. apply elem_of_flat.
  assert (Hm : m ∈ order.*1) by (apply Hkeys; eauto).
  apply list_elem_of_fmap in Hm as ([m' ks] & -> & Hmo). cbn [fst] in *.
  exists ks. split; [exact Hmo|].
  apply (proj2 (Hks m' ks Hmo) l Hl k). rewrite Hc. eauto.
Qed.

(** X13: Go walks a map in no fixed order, and with nothing shared it does not
    matter: any two range orders leave the same store. *)
Theorem calculateDiffs_order_free (σ : Store) out1 out2 order1 order2 :
  separate machineMetricsStart machineMetricsEnd →
  range_order machineMetricsEnd σ order1 →
  range_order machineMetricsEnd σ order2 →
  fst (fst (calculateDiffs'' order1 (σ, out1))) =
  fst (fst (calculateDiffs'' order2 (σ, out2))).
Proof.
  intros Hsep H1 H2.
  destruct (calculateDiffs_cells σ out1 order1 Hsep H1) as (Hd1 & Hf1 & Hc1).
  destruct (calculateDiffs_cells σ out2 order2 Hsep H2) as (Hd2 & Hf2 & Hc2).
  cbn zeta in *.
  set (σ1 := fst (fst (calculateDiffs'' order1 (σ, out1)))) in *.
  set (σ2 := fst (fst (calculateDiffs'' order2 (σ, out2)))) in *.
  apply map_eq. intros l.
  destruct (reached_or_not l) as [[m Hm]|Hout].
  2:{ now rewrite Hf1, Hf2. }
  pose proof (Hd1 l) as D1. pose proof (Hd2 l) as D2.
  destruct (σ1 !! l) as [im1|] eqn:E1, (σ2 !! l) as [im2|] eqn:E2.
  - f_equal. apply map_eq. intros k.
    pose proof (Hc1 m l k Hm) as C1. pose proof (Hc2 m l k Hm) as C2.
    unfold cell at 1 in C1. unfold cell at 1 in C2. rewrite E1 in C1.
    rewrite E2 in C2. cbn [mbind option_bind] in C1, C2. congruence.
  - exfalso. apply (is_Some_None (A:=Inner)). apply D2, D1. eauto.
  - exfalso. apply (is_Some_None (A:=Inner)). apply D1, D2. eauto.
  - reflexivity.
Qed.

End DiffOrder.

(** ** More on the [ssh] command *)

Section SshMore.
Import GoStrings Http Ssh.

(** X14: a machine name that makes the URL unparsable: [http.NewRequest] fails,
    its error is overwritten by the result of [getToken], and with a token
    the command dies on the nil request before anything is sent or printed;
    without a token it is the token error that is printed. *)
Theorem malformed_url_not_reported env machine m0 server e :
  setMistContext env = None →
  getServer env = (server, None) →
  parseURL env (sshPath server machine) = Some e →
  match snd (getToken env) with
  | None => sshCmd env machine m0 = (Crashed nilDeref, init m0)
  | Some e' => sshCmd env machine m0 = (Returned, mkSt [EPrint (e' ++ nl)] [] m0 m0)
  end.
Proof.
  intros Hc Hs Hp. destruct (getToken env) as [token [e'|]] eqn:Ht; cbn [snd].
  - unfold sshCmd, Run, bind.
    rewrite (launch_token_error env machine server token e' _ Hc Hs Ht).
    now rewrite leave_return by reflexivity.
  - unfold sshCmd, Run, bind.
    rewrite (launch_request_nil env machine server token e _ Hc Hs Hp Ht).
    rewrite <- (push_nil (init m0)) at 1.
    now rewrite leave_panic by reflexivity.
Qed.

(** X15: when [SetRaw] fails the command panics with that error: the socket and
    the body are closed on the way out, [Reset] is not called, and the
    terminal is in the mode it was in. *)
Theorem setraw_failure_closes env machine m0 server token location urls c r e :
  launched env machine server token location →
  last_dial env token location urls (DialOK c r) →
  consoleCurrent env = None →
  setRaw env = Some e →
  ∃ tr,
    sshCmd env machine m0 =
      (Crashed e, mkSt (tr ++ [ECurrent; ESetRaw; EConnClose c; EBodyClose])
                       [] m0 m0) ∧
    existsb is_terminal_event tr = false.
Proof.
  intros Hl Hd Hcur Hraw.
  rewrite (sshCmd_upgraded env machine m0 server token location urls c r Hl Hd).
  unfold session_end. rewrite Hcur, Hraw. eexists. split; [reflexivity|].
  destruct Hd; reflexivity.
Qed.

(** X16: no run dials more than twice, and every dial carries the Authorization
    header with the token that [getToken] gave, and nothing else. *)
Theorem dials_bounded env machine m0 :
  let ds := dials (trace (snd (sshCmd env machine m0))) in
  (length ds <= 2)%nat ∧
  ∀ u h, In (u, h) ds → h = authHeader (fst (getToken env)).
Proof.
  cbn zeta.
  destruct (launch_cases env machine (init m0))
    as (ctl & es & ds & E & Hes & Hd & Hctl).
  destruct ctl as [[token location]| |e|].
  - destruct Hctl as [[server Hl] ->]. clear E.
    assert (Htok : fst (getToken env) = token).
    { destruct Hl as (resp & _ & _ & _ & -> & _). reflexivity. }
    rewrite Htok.
    destruct (dial_paths env token location)
      as [(more & d & Hlast)|(r1 & e1 & Hr1 & H302 & Hloc)].
    + rewrite (dials_after_last_dial env machine m0 server token location
                 _ d Hl Hlast).
      split.
      * inversion Hlast; cbn; lia.
      * intros u h Hin. apply in_map_iff in Hin as (u' & [= _ <-] & _).
        reflexivity.
    + rewrite (sshCmd_nil_location env machine m0 server token location r1 e1
                 Hl Hr1 H302 Hloc).
      cbn. split; [lia|]. intros u h [[= _ <-]|[]]. reflexivity.
  - unfold sshCmd, Run, bind.
    rewrite E, leave_return by exact Hctl. cbn [snd trace].
    rewrite dials_app, Hd, closes_no_dials. cbn. split; [lia|tauto].
  - unfold sshCmd, Run, bind.
    rewrite E, leave_panic by exact Hctl. cbn [snd trace].
    rewrite dials_app, Hd, closes_no_dials. cbn. split; [lia|tauto].
  - destruct Hctl.
Qed.

(** X17: every way out after a successful upgrade closes what was opened: if the
    command leaves at all, the last two events are the close of the socket
    and the close of the response body. *)
Theorem leaving_closes_socket env machine m0 server token location urls c r :
  launched env machine server token location →
  last_dial env token location urls (DialOK c r) →
  fst (sshCmd env machine m0) ≠ Waiting →
  ∃ tr, trace (snd (sshCmd env machine m0)) = (tr ++ [EConnClose c; EBodyClose])%list.
Proof.
  intros Hl Hd.
  rewrite (sshCmd_upgraded env machine m0 server token location urls c r Hl Hd).
  generalize (EDo sshClient (sshRequest server machine token) :: EReadAll ::
              map (fun u => EDial u (authHeader token)) urls).
  intros es. unfold session_end, teardown.
  destruct (consoleCurrent env) as [e|]; cbn [fst snd trace].
  { intros _. exists (es ++ [ECurrent])%list. now rewrite <- app_assoc. }
  destruct (setRaw env) as [e|]; cbn [fst snd trace].
  { intros _. exists (es ++ [ECurrent; ESetRaw])%list. now rewrite <- app_assoc. }
  destruct (resizeWrite env) as [e|]; cbn [fst snd trace].
  { intros _.
    exists (es ++ [ECurrent; ESetRaw; ENewTerminal; first_resize env c;
                   EPrint (e ++ nl); EReset])%list.
    rewrite <- !app_assoc. reflexivity. }
  destruct (snd (until_fire (schedule env))); cbn [fst snd trace].
  - intros _.
    exists (es ++ [ECurrent; ESetRaw; ENewTerminal; first_resize env c] ++
            goes c ++ fst (until_fire (schedule env)) ++ [ERecvDone; EReset])%list.
    unfold goes. repeat first [rewrite <- app_assoc | progress cbn [app]].
    reflexivity.
  - intros H. now destruct H.
Qed.

Lemma normalized_ends (server : string) :
  HasSuffix (normalizeServer server) "/" = true.
Proof.
  unfold normalizeServer.
  destruct (HasSuffix server "/") eqn:Hsuf; cbn [negb].
  - destruct (HasPrefix server "http"); cbn [negb];
      [exact Hsuf|now apply HasSuffix_app_l].
  - destruct (HasPrefix (server ++ "/") "http"); cbn [negb].
    + apply HasSuffix_app_self.
    + apply HasSuffix_app_l, HasSuffix_app_self.
Qed.

Lemma normalized_starts (server : string) :
  HasPrefix (normalizeServer server) "http" = true.
Proof.
  unfold normalizeServer.
  destruct (HasSuffix server "/"); cbn [negb].
  - destruct (HasPrefix server "http") eqn:Hpre; cbn [negb]; [exact Hpre|].
    apply (HasPrefix_app_self "http" ("://" ++ server)).
  - destruct (HasPrefix (server ++ "/") "http") eqn:Hpre; cbn [negb];
      [exact Hpre|].
    apply (HasPrefix_app_self "http" ("://" ++ (server ++ "/"))).
Qed.

(** X18: normalizing a normalized address changes nothing. *)
Theorem normalizeServer_idempotent (server : string) :
  normalizeServer (normalizeServer server) = normalizeServer server.
Proof.
  unfold normalizeServer at 1. cbv zeta.
  rewrite normalized_ends. cbn [negb].
  now rewrite normalized_starts.
Qed.

End SshMore.

Section CollectFacts.
Import Http Metering MeteringData.

Lemma register_entry c item :
  ∃ l, machineMetrics (register c item) !! get (Metric item) "machine_id" = Some l ∧
       is_Some (store (register c item) !! l).
Proof.
  unfold register, isNil.
  destruct (machineMetrics c !! get (Metric item) "machine_id") as [l|] eqn:Hl;
    cbn [mbind option_bind].
  - destruct (store c !! l) as [im|] eqn:Hs.
    + exists l. rewrite Hl, Hs. eauto.
    + eexists. cbn. rewrite !lookup_insert_eq. eauto.
  - eexists. cbn. rewrite !lookup_insert_eq. eauto.
Qed.

(** A turn panics exactly on an unreadable item. *)
Lemma turn_panics c item :
  (∃ p, turn c item = inr p) ↔ unreadable item.
Proof.
  unfold turn, record, unreadable.
  destruct (register_entry c item) as (l & Hl & [im Him]).
  destruct (Value item) as [value|]; [|split; [intros [p [=]]|tauto]].
  destruct (value !! 1%nat) as [[s|]|].
  - rewrite Hl, Him. split; [intros [p [=]]|tauto].
  - split; eauto.
  - split; eauto.
Qed.

(** X19: the function panics if and only if some item of the response is
    unreadable: its value is there and holds no string at index 1. *)
Theorem getMeteringData_panics (result : list resultItem) (σ : Store) :
  (∃ p, getMeteringData result σ = inr p) ↔ Exists unreadable result.
Proof.
  unfold getMeteringData. generalize (mkCollected ∅ ∅ ∅ σ).
  induction result as [|item result IH]; intros c; cbn [turns].
  - split; [intros [p [=]]|intros H; inversion H].
  - rewrite Exists_cons. pose proof (turn_panics c item) as Ht.
    destruct (turn c item) as [c'|p].
    + rewrite IH. split; [tauto|]. intros [Hu|Hr]; [|exact Hr].
      apply Ht in Hu as [p [=]].
    + split; [intros _; left; apply Ht; eauto|eauto].
Qed.

Lemma collected_start σ0 : collected_from σ0 (mkCollected ∅ ∅ ∅ σ0).
Proof.
  unfold collected_from.
  cbn [machineNames machineMetrics store MeteringData.metricsSet].
  split; [|split; [|split; [|split]]].
  - intros id. rewrite !lookup_empty.
    split; intros H; now apply is_Some_None in H.
  - intros id l. rewrite lookup_empty. discriminate.
  - intros id1 id2 l. rewrite lookup_empty. discriminate.
  - reflexivity.
  - intros id l k. rewrite lookup_empty. discriminate.
Qed.

Lemma fresh_place (σ : Store) : σ !! fresh (dom σ) = None.
Proof. apply not_elem_of_dom, is_fresh. Qed.

Lemma register_collected σ0 c item :
  collected_from σ0 c → collected_from σ0 (register c item).
Proof.
  intros (Hnames & Hnew & Hinj & Hold & Htyped). unfold register, isNil.
  set (id := get (Metric item) "machine_id").
  destruct (machineMetrics c !! id) as [l0|] eqn:Hid; cbn [mbind option_bind].
  { destruct (Hnew id l0 Hid) as [[im ->] _].
    exact (conj Hnames (conj Hnew (conj Hinj (conj Hold Htyped)))). }
  set (l := fresh (dom (store c))).
  assert (Hl : store c !! l = None) by apply fresh_place.
  assert (Hl0 : σ0 !! l = None).
  { destruct (σ0 !! l) as [im|] eqn:E; [|reflexivity].
    assert (Hs : store c !! l = σ0 !! l) by (apply Hold; rewrite E; eauto).
    congruence. }
  assert (Hother : ∀ id' l', machineMetrics c !! id' = Some l' → l' ≠ l).
  { intros id' l' H ->. destruct (Hnew id' l H) as [[im Him] _]. congruence. }
  unfold collected_from. cbn [machineNames machineMetrics store MeteringData.metricsSet].
  split; [|split; [|split; [|split]]].
  - intros id'. destruct (decide (id' = id)) as [->|Hne].
    + rewrite !lookup_insert_eq. split; eauto.
    + rewrite !lookup_insert_ne by auto. apply Hnames.
  - intros id' l'. destruct (decide (id' = id)) as [->|Hne].
    + rewrite lookup_insert_eq. intros [= <-]. rewrite lookup_insert_eq. eauto.
    + rewrite lookup_insert_ne by auto. intros H.
      rewrite lookup_insert_ne by (intros E; exact (Hother id' l' H (eq_sym E))).
      exact (Hnew id' l' H).
  - intros id1 id2 l'.
    destruct (decide (id1 = id)) as [->|Hne1], (decide (id2 = id)) as [->|Hne2];
      rewrite ?lookup_insert_eq, ?lookup_insert_ne by auto; try reflexivity.
    + intros [= <-] H. now destruct (Hother id2 l H).
    + intros H [= <-]. now destruct (Hother id1 l H).
    + apply Hinj.
  - intros l' Hsome. rewrite lookup_insert_ne; [now apply Hold|].
    intros <-. rewrite Hl0 in Hsome. now apply is_Some_None in Hsome.
  - intros id' l' k. destruct (decide (id' = id)) as [->|Hne].
    + rewrite lookup_insert_eq. intros [= <-]. unfold cell.
      rewrite lookup_insert_eq. cbn. rewrite lookup_empty.
      intros H. now apply is_Some_None in H.
    + rewrite lookup_insert_ne by auto. intros H. unfold cell.
      rewrite lookup_insert_ne by (intros E; exact (Hother id' l' H (eq_sym E))).
      exact (Htyped id' l' k H).
Qed.

Lemma turn_collected σ0 c item c' :
  collected_from σ0 c → turn c item = inl c' → collected_from σ0 c'.
Proof.
  intros Hc. apply (register_collected σ0 c item) in Hc.
  unfold turn, record. generalize dependent (register c item). clear c.
  intros c (Hnames & Hnew & Hinj & Hold & Htyped).
  set (k := get (Metric item) "__name__").
  assert (Hkeep : ∀ c1, MeteringData.metricsSet c1 = MeteringData.metricsSet c →
            machineMetrics c1 = machineMetrics c →
            ∀ id l k', machineMetrics c !! id = Some l →
              (is_Some (cell (store c1) l k') →
               k' = k ∨ is_Some (cell (store c) l k')) →
              is_Some (cell (store c1) l k') →
              is_Some (MeteringData.metricsSet (typed c1 item) !! k')).
  { intros c1 E1 E2 id l k' Hid Hor Hs. cbn. fold k. rewrite E1.
    apply lookup_insert_is_Some'. destruct (Hor Hs) as [->|Hc]; [now left|].
    right. exact (Htyped id l k' Hid Hc). }
  destruct (Value item) as [value|].
  2:{ intros [= <-]. unfold collected_from.
      cbn [typed machineNames machineMetrics store].
      split; [exact Hnames|]. split; [exact Hnew|]. split; [exact Hinj|].
      split; [exact Hold|].
      intros id l k' Hid Hs. apply (Hkeep c eq_refl eq_refl id l k' Hid); auto. }
  destruct (value !! 1%nat) as [[s|]|]; try discriminate.
  destruct (machineMetrics c !! get (Metric item) "machine_id") as [l|] eqn:Hid;
    [|discriminate].
  destruct (store c !! l) as [metrics|] eqn:Hl; [|discriminate].
  intros [= <-]. unfold collected_from.
  cbn [typed machineNames machineMetrics store].
  split; [exact Hnames|]. split; [|split; [exact Hinj|split]].
  - intros id' l' H. destruct (Hnew id' l' H) as [Hs H0]. split; [|exact H0].
    destruct (decide (l' = l)) as [->|Hne].
    + rewrite lookup_insert_eq. eauto.
    + now rewrite lookup_insert_ne by auto.
  - intros l' Hs. rewrite lookup_insert_ne; [now apply Hold|].
    intros <-. destruct (Hnew _ _ Hid) as [_ H0]. rewrite H0 in Hs.
    now apply is_Some_None in Hs.
  - intros id' l' k' H Hs.
    eapply (Hkeep (mkCollected _ _ _ _) eq_refl eq_refl id' l' k' H); [|exact Hs].
    cbn [store]. unfold cell. destruct (decide (l' = l)) as [->|Hne].
    + rewrite lookup_insert_eq, Hl. cbn [mbind option_bind].
      destruct (decide (k' = k)) as [->|Hk]; [now left|].
      rewrite lookup_insert_ne by auto. now right.
    + rewrite lookup_insert_ne by auto. now right.
Qed.

Lemma turns_collected σ0 items :
  ∀ c c', collected_from σ0 c → turns c items = inl c' → collected_from σ0 c'.
Proof.
  induction items as [|item items IH]; intros c c' Hc; cbn [turns].
  - now intros [= <-].
  - destruct (turn c item) as [c1|p] eqn:Ht; [|discriminate].
    apply IH. exact (turn_collected σ0 c item c1 Hc Ht).
Qed.

(** X20: what comes back when the function does not panic: the names and the
    metrics cover the same machines; every machine has an inner map of its
    own, allocated by this call; the maps that were in the store are
    untouched; every metric that has a value has a type in [metricsSet]. *)
Theorem getMeteringData_collected (result : list resultItem) (σ : Store) c :
  getMeteringData result σ = inl c → collected_from σ c.
Proof. apply turns_collected, collected_start. Qed.

(** A second collection, made in the store of a first one. *)
Lemma collected_apart (σ : Store) start (last_ : list resultItem) end_ :
  collected_from σ start →
  getMeteringData last_ (store start) = inl end_ →
  separate (machineMetrics start) (machineMetrics end_) ∧
  ∀ id l, machineMetrics start !! id = Some l →
          store end_ !! l = store start !! l.
Proof.
  intros (_ & Hnew1 & _ & _ & _) H2.
  destruct (turns_collected _ _ _ _ (collected_start (store start)) H2)
    as (_ & Hnew2 & Hinj2 & Hold2 & _).
  split; [split|].
  - exact Hinj2.
  - intros m1 m2 l Hs He.
    destruct (Hnew1 m1 l Hs) as [[im Him] _].
    destruct (Hnew2 m2 l He) as [_ Hnone]. congruence.
  - intros id l Hs. apply Hold2. exact (proj1 (Hnew1 id l Hs)).
Qed.

(** X21: the two snapshots of [meteringCmd] share nothing: the second call gives
    every machine a map the first call did not make, and leaves the maps of
    the first snapshot as they are. *)
Theorem snapshots_separate (first last_ : list resultItem) (σ : Store) start end_ :
  getMeteringData first σ = inl start →
  getMeteringData last_ (store start) = inl end_ →
  separate (machineMetrics start) (machineMetrics end_) ∧
  ∀ id l, machineMetrics start !! id = Some l →
          store end_ !! l = store start !! l.
Proof.
  intros H1 H2. apply (collected_apart σ start last_ end_); [|exact H2].
  exact (turns_collected _ _ _ _ (collected_start σ) H1).
Qed.

End CollectFacts.

Section CmdFacts.
Import Http Metering MeteringData.

Variable F : Type.
Variable ParseFloat : string → F + Error.
Variable fsub : F → F → F.
Variable formatF : F → string.

(** X22: [meteringCmd] end to end, for every response that does not make it
    panic and every order of the walk: under each machine of the second
    response, a metric holds the difference to the value the first response
    had for it when it is a counter that the first response has and both
    values parse, and the value of the second response otherwise; the
    snapshot of the first response is as it was collected. *)
Theorem meteringDiffs_end_minus_start first last_ (σ : Store) order end_ σ' out :
  meteringDiffs F ParseFloat fsub formatF first last_ σ order
    = inl (end_, (σ', out)) →
  range_order (machineMetrics end_) (store end_) order →
  ∃ start,
    getMeteringData first σ = inl start ∧
    (∀ m l k, machineMetrics end_ !! m = Some l →
       cell σ' l k =
         diffValue F ParseFloat fsub formatF (machineMetrics start)
           (MeteringData.metricsSet end_) (store start) m k
         <$> cell (store end_) l k) ∧
    (∀ m l, machineMetrics start !! m = Some l → σ' !! l = store start !! l).
Proof.
  unfold meteringDiffs. intros H Hord.
  destruct (getMeteringData first σ) as [start|p] eqn:H1; [|discriminate].
  destruct (getMeteringData last_ (store start)) as [end'|p] eqn:H2;
    [|discriminate].
  injection H as <- H.
  destruct (collected_apart σ start last_ end'
              (turns_collected _ _ _ _ (collected_start σ) H1) H2)
    as [Hsep Hkept].
  destruct (calculateDiffs_cells F ParseFloat fsub formatF
              (machineMetrics start) (machineMetrics end')
              (MeteringData.metricsSet end') (store end') [] order Hsep Hord)
    as (_ & Hframe & Hcells).
  cbn zeta in *. unfold Metering.calculateDiffs in Hframe, Hcells.
  cbn [fst] in Hframe, Hcells. rewrite H in Hframe, Hcells. cbn [fst] in *.
  exists start. split; [reflexivity|]. split.
  - intros m l k Hl. rewrite (Hcells m l k Hl).
    destruct (cell (store end') l k) as [v|];
      cbn [fmap option_fmap option_map]; [|reflexivity].
    f_equal. apply diffValue_ext. exact Hkept.
  - intros m l Hs. rewrite <- (Hkept m l Hs). apply Hframe.
    intros m' He. destruct Hsep as [_ Hdisj]. exact (Hdisj m m' l Hs He).
Qed.

End CmdFacts.

Section TableFacts.
Import Http Metering MeteringData MeteringTable.

Lemma sortStrings_sorted (l : list string) :
  StronglySorted String.le (sortStrings l) ∧ sortStrings l ≡ₚ l.
Proof.
  split; [apply StronglySorted_merge_sort; apply _|apply merge_sort_Permutation].
Qed.

Lemma sortStrings_perm (l1 l2 : list string) :
  l1 ≡ₚ l2 → sortStrings l1 = sortStrings l2.
Proof.
  intros Hp. apply (StronglySorted_unique String.le).
  - apply sortStrings_sorted.
  - apply sortStrings_sorted.
  - now rewrite !(proj2 (sortStrings_sorted _)).
Qed.

Lemma keys_range_perm {V} (m : gmap string V) ks1 ks2 :
  keys_range m ks1 → keys_range m ks2 → ks1 ≡ₚ ks2.
Proof.
  intros [Hnd1 H1] [Hnd2 H2]. apply NoDup_Permutation; auto.
  intros k. now rewrite H1, H2.
Qed.

Variable metricsSet : gmap string string.
Variable machineMetrics : Outer.
Variable machineNames : gmap string string.
Variable σ : Store.

(** X23: the table does not depend on the order in which Go walks the two
    maps. *)
Theorem formatArgs_order_free ks1 ks2 ms1 ms2 :
  keys_range metricsSet ks1 → keys_range metricsSet ks2 →
  keys_range machineMetrics ms1 → keys_range machineMetrics ms2 →
  formatArgs machineMetrics machineNames σ ks1 ms1 =
  formatArgs machineMetrics machineNames σ ks2 ms2.
Proof.
  intros Hk1 Hk2 Hm1 Hm2. unfold formatArgs.
  rewrite (sortStrings_perm ks1 ks2) by (eapply keys_range_perm; eauto).
  rewrite (sortStrings_perm ms1 ms2) by (eapply keys_range_perm; eauto).
  reflexivity.
Qed.

Lemma add_rows (rs0 rs : list (gmap string string)) :
  fold_left add_row rs {[ "data" := rs0 ]} = {[ "data" := (rs0 ++ rs)%list ]}.
Proof.
  revert rs0. induction rs as [|r rs IH]; intros rs0; cbn [fold_left].
  - now rewrite app_nil_r.
  - unfold add_row at 2. rewrite lookup_singleton_eq. cbn [default].
    rewrite insert_singleton_eq, IH, <- app_assoc. reflexivity.
Qed.

Lemma add_rows_empty (rs : list (gmap string string)) :
  fold_left add_row rs ∅ =
    match rs with [] => ∅ | _ => {[ "data" := rs ]} end.
Proof.
  destruct rs as [|r rs]; [reflexivity|]. cbn [fold_left].
  unfold add_row at 2. rewrite lookup_empty, lookup_insert_eq. cbn [default app].
  rewrite insert_insert_eq, insert_empty. apply add_rows.
Qed.

Lemma fold_rows (f : string → gmap string string) ms d :
  fold_left (fun data machine => add_row data (f machine)) ms d =
  fold_left add_row (f <$> ms) d.
Proof.
  revert d. induction ms as [|m ms IH]; intros d; [reflexivity|].
  cbn [fold_left fmap list_fmap]. apply IH.
Qed.

(** X24: the table has one row per machine, in increasing order of the machine
    identifiers, under the key [data]; with no machine there is no such
    key at all.  The metric columns are in increasing order too. *)
Theorem formatArgs_rows ks ms :
  keys_range machineMetrics ms →
  ∃ metricsList machines,
    StronglySorted String.le metricsList ∧ metricsList ≡ₚ ks ∧
    StronglySorted String.le machines ∧ NoDup machines ∧
    (∀ id, id ∈ machines ↔ is_Some (machineMetrics !! id)) ∧
    formatArgs machineMetrics machineNames σ ks ms =
      (match machines with
       | [] => ∅
       | _ => {[ "data" := row machineMetrics machineNames σ metricsList
                             <$> machines ]}
       end,
       ("name" :: metricsList, "machine_id" :: "name" :: metricsList)).
Proof.
  intros [Hnd Hkeys]. exists (sortStrings ks), (sortStrings ms).
  destruct (sortStrings_sorted ks) as [Hs1 Hp1].
  destruct (sortStrings_sorted ms) as [Hs2 Hp2].
  repeat split; auto.
  - now rewrite Hp2.
  - rewrite Hp2. apply Hkeys.
  - rewrite Hp2. apply Hkeys.
  - unfold formatArgs. f_equal.
    rewrite (fold_rows (row machineMetrics machineNames σ (sortStrings ks))).
    rewrite add_rows_empty. now destruct (sortStrings ms).
Qed.

Lemma fill_follow machine k ks :
  ∀ md, is_Some (md !! "machine_id") →
    fold_left (fill machineMetrics machineNames σ machine) ks md !! k =
      if decide (k ∈ ks) then Some (value machineMetrics σ machine k)
      else md !! k.
Proof.
  induction ks as [|k0 ks IH]; intros md Hid; cbn [fold_left].
  - now rewrite decide_False by apply not_elem_of_nil.
  - assert (Hfill : fill machineMetrics machineNames σ machine md k0 =
                    <[k0 := value machineMetrics σ machine k0]> md).
    { unfold fill. destruct Hid as [x ->]. reflexivity. }
    rewrite Hfill, IH by (apply lookup_insert_is_Some'; auto).
    destruct (decide (k ∈ ks)) as [Hin|Hnin].
    + now rewrite decide_True by (now right).
    + destruct (decide (k = k0)) as [->|Hne].
      * rewrite lookup_insert_eq. now rewrite decide_True by left.
      * rewrite lookup_insert_ne by auto.
        rewrite decide_False; [reflexivity|].
        rewrite elem_of_cons. tauto.
Qed.

(** X25: the columns of a row: under every metric of the list the value the
    machine has for it, empty when it has none; with at least one metric
    also the machine identifier and the name, unless a metric of that very
    name takes the column; and nothing else, so with no metric the row is
    empty. *)
Theorem row_columns (metricsList : list string) (machine k : string) :
  row machineMetrics machineNames σ metricsList machine !! k =
    if decide (k ∈ metricsList) then Some (value machineMetrics σ machine k)
    else match metricsList with
         | [] => None
         | _ =>
             if decide (k = "machine_id") then Some machine
             else if decide (k = "name") then Some (get machineNames machine)
             else None
         end.
Proof.
  unfold row. destruct metricsList as [|k0 ks].
  - cbn. rewrite lookup_empty. now rewrite decide_False by apply not_elem_of_nil.
  - cbn [fold_left]. unfold fill at 2. rewrite lookup_empty.
    rewrite fill_follow.
    2:{ apply lookup_insert_is_Some'. right. apply lookup_insert_is_Some'. right.
        rewrite lookup_insert_eq. eauto. }
    destruct (decide (k ∈ ks)) as [Hin|Hnin].
    + now rewrite decide_True by (now right).
    + destruct (decide (k = k0)) as [->|Hne].
      * rewrite lookup_insert_eq. now rewrite decide_True by left.
      * rewrite lookup_insert_ne by auto.
        rewrite (decide_False (P := k ∈ k0 :: ks)) by (rewrite elem_of_cons; tauto).
        destruct (decide (k = "name")) as [->|Hn].
        -- rewrite lookup_insert_eq. now rewrite decide_False by discriminate.
        -- rewrite lookup_insert_ne by auto.
           destruct (decide (k = "machine_id")) as [->|Hm].
           ++ now rewrite lookup_insert_eq.
           ++ rewrite lookup_insert_ne by auto. apply lookup_empty.
Qed.

End TableFacts.

Section MeteringRuns.
Import Http Metering MeteringData MeteringTable MeteringScenario.

Ltac by_compute := apply (bool_decide_unpack _); vm_compute; exact I.

Lemma keys_range_by_dom {V} (m : gmap string V) (ks : list string) :
  NoDup ks → list_to_set ks = dom m → keys_range m ks.
Proof.
  intros Hnd Hdom. split; [exact Hnd|]. intros k.
  rewrite <- elem_of_dom, <- Hdom. apply symmetry, elem_of_list_to_set.
Qed.

Lemma range_order_by_dom (outer : Outer) (σ : Store) order :
  NoDup order.*1 →
  list_to_set order.*1 = dom outer →
  Forall (fun mo => NoDup mo.2 ∧
            match outer !! mo.1 with
            | Some l => list_to_set mo.2 = dom (default ∅ (σ !! l))
            | None => True
            end) order →
  range_order outer σ order.
Proof.
  intros Hnd Hdom Hall. split; [exact Hnd|]. split.
  - intros m. rewrite <- elem_of_dom, <- Hdom. apply symmetry, elem_of_list_to_set.
  - intros m ks Hin. rewrite Forall_forall in Hall.
    destruct (Hall _ Hin) as [Hks Hl]. cbn [fst snd] in *.
    split; [exact Hks|]. intros l Hm k. rewrite Hm in Hl. unfold cell.
    destruct (σ !! l) as [im|]; cbn [mbind option_bind].
    + change (list_to_set ks = dom im) in Hl.
      rewrite <- elem_of_dom, <- Hl. apply symmetry, elem_of_list_to_set.
    + change (list_to_set ks = dom (∅ : Inner)) in Hl.
      rewrite dom_empty_L in Hl. rewrite <- (elem_of_list_to_set (C := gset string)), Hl.
      rewrite elem_of_empty. split; [tauto|]. intros H. now apply is_Some_None in H.
Qed.

Lemma NoDup_fmap_eq {A B} (f : A → B) (l : list A) x y :
  NoDup (f <$> l) → x ∈ l → y ∈ l → f x = f y → x = y.
Proof.
  induction l as [|a l IH]; cbn [fmap list_fmap]; intros Hnd Hx Hy Hf.
  - now apply elem_of_nil in Hx.
  - apply NoDup_cons in Hnd as [Ha Hnd].
    apply elem_of_cons in Hx as [->|Hx], Hy as [->|Hy]; auto.
    + exfalso. apply Ha. rewrite Hf. apply list_elem_of_fmap. eauto.
    + exfalso. apply Ha. rewrite <- Hf. apply list_elem_of_fmap. eauto.
Qed.

Lemma separate_by_img (s e : Outer) :
  NoDup (map_to_list e).*2 →
  Forall (fun l => l ∉ (map_to_list e).*2) (map_to_list s).*2 →
  separate s e.
Proof.
  intros Hnd Hall. split.
  - intros m1 m2 l H1 H2. apply elem_of_map_to_list in H1, H2.
    now pose proof (NoDup_fmap_eq snd _ (m1, l) (m2, l) Hnd H1 H2 eq_refl) as [= ->].
  - intros m1 m2 l H1 H2. apply elem_of_map_to_list in H1, H2.
    rewrite Forall_forall in Hall. apply (Hall l).
    + apply list_elem_of_fmap. exists (m1, l). eauto.
    + apply list_elem_of_fmap. exists (m2, l). eauto.
Qed.

(** A response with a counter and a gauge for one machine. *)
Lemma getMeteringData_collected_witness :
  getMeteringData first_response ∅ = inl first_collected ∧
  collected_from ∅ first_collected.
Proof.
  split; [vm_compute; reflexivity|].
  apply (getMeteringData_collected first_response ∅ first_collected).
  vm_compute. reflexivity.
Defined.

(** The two calls of the command, the second in the store of the first. *)
Lemma snapshots_separate_witness :
  separate (machineMetrics first_collected) (machineMetrics last_collected) ∧
  ∀ id l, machineMetrics first_collected !! id = Some l →
          store last_collected !! l = store first_collected !! l.
Proof.
  apply (snapshots_separate first_response last_response ∅
           first_collected last_collected).
  - vm_compute. reflexivity.
  - vm_compute. reflexivity.
Defined.

Lemma last_order_range :
  range_order (machineMetrics last_collected) (store last_collected) last_order.
Proof.
  apply range_order_by_dom; [by_compute|by_compute|].
  repeat constructor; by_compute.
Qed.

Lemma last_order_range' :
  range_order (machineMetrics last_collected) (store last_collected) last_order'.
Proof.
  apply range_order_by_dom; [by_compute|by_compute|].
  repeat constructor; by_compute.
Qed.

(** The command on the two responses: the counter of the machine that both
    have becomes the difference, its gauge and the counter of the new
    machine stay. *)
Lemma meteringDiffs_end_minus_start_witness :
  meteringDiffs Z parseWhole Z.sub formatWhole first_response last_response ∅
    last_order = inl (last_collected, (diffed, [])) ∧
  ∃ start,
    getMeteringData first_response ∅ = inl start ∧
    (∀ m l k, machineMetrics last_collected !! m = Some l →
       cell diffed l k =
         diffValue Z parseWhole Z.sub formatWhole (machineMetrics start)
           (MeteringData.metricsSet last_collected) (store start) m k
         <$> cell (store last_collected) l k) ∧
    (∀ m l, machineMetrics start !! m = Some l →
            diffed !! l = store start !! l).
Proof.
  split; [vm_compute; reflexivity|].
  apply (meteringDiffs_end_minus_start Z parseWhole Z.sub formatWhole
           first_response last_response ∅ last_order last_collected diffed []).
  - vm_compute. reflexivity.
  - exact last_order_range.
Defined.

(** Two walks of the second snapshot, machines and metrics in different
    orders. *)
Lemma calculateDiffs_order_free_witness :
  fst (fst (calculateDiffs Z parseWhole Z.sub formatWhole
              (machineMetrics first_collected) (machineMetrics last_collected)
              (MeteringData.metricsSet last_collected) last_order
              (store last_collected, []))) =
  fst (fst (calculateDiffs Z parseWhole Z.sub formatWhole
              (machineMetrics first_collected) (machineMetrics last_collected)
              (MeteringData.metricsSet last_collected) last_order'
              (store last_collected, []))).
Proof.
  apply calculateDiffs_order_free.
  - apply separate_by_img; [by_compute|]. repeat constructor; by_compute.
  - exact last_order_range.
  - exact last_order_range'.
Defined.

(** The table of the two machines, the maps walked in two orders. *)
Lemma formatArgs_order_free_witness :
  formatArgs (machineMetrics last_collected) (machineNames last_collected)
    diffed ["cpu"; "load"] ["m1"; "m2"] =
  formatArgs (machineMetrics last_collected) (machineNames last_collected)
    diffed ["load"; "cpu"] ["m2"; "m1"].
Proof.
  apply (formatArgs_order_free (MeteringData.metricsSet last_collected)).
  - apply keys_range_by_dom; by_compute.
  - apply keys_range_by_dom; by_compute.
  - apply keys_range_by_dom; by_compute.
  - apply keys_range_by_dom; by_compute.
Defined.

Lemma formatArgs_rows_witness :
  ∃ metricsList machines,
    StronglySorted String.le metricsList ∧ metricsList ≡ₚ ["load"; "cpu"] ∧
    StronglySorted String.le machines ∧ NoDup machines ∧
    (∀ id, id ∈ machines ↔ is_Some (machineMetrics last_collected !! id)) ∧
    formatArgs (machineMetrics last_collected) (machineNames last_collected)
        diffed ["load"; "cpu"] ["m2"; "m1"] =
      (match machines with
       | [] => ∅
       | _ => {[ "data" := row (machineMetrics last_collected)
                             (machineNames last_collected) diffed metricsList
                             <$> machines ]}
       end,
       ("name" :: metricsList, "machine_id" :: "name" :: metricsList)).
Proof.
  apply formatArgs_rows. apply keys_range_by_dom; by_compute.
Defined.

End MeteringRuns.

Section SshRuns.
Import Http Ssh Scenario SshScenario.

(** A machine name with a stray percent sign: the command dies on the nil
    request, with nothing sent and nothing printed. *)
Lemma malformed_url_not_reported_witness :
  sshCmd bad_url "m%1" Cooked = (Crashed nilDeref, init Cooked).
Proof.
  exact (malformed_url_not_reported bad_url "m%1" Cooked "mist.io"
           "invalid URL escape" eq_refl eq_refl eq_refl).
Defined.

Lemma no_raw_launched :
  launched no_raw "m1" "mist.io" "tok" "ws://mist.io/ws/1".
Proof. exists handshake. repeat split. Qed.

Lemma direct_last_dial env :
  dial env = dial_direct →
  last_dial env "tok" "ws://mist.io/ws/1" ["ws://mist.io/ws/1"]
    (DialOK 1%nat (switching "ws://mist.io/ws/1")).
Proof.
  intros Hd.
  change (DialOK 1%nat (switching "ws://mist.io/ws/1"))
    with (dial_direct 0 "ws://mist.io/ws/1" (authHeader "tok")).
  rewrite <- Hd. apply first_dial. rewrite Hd. intros r [= <-]. cbn. lia.
Qed.

(** Standard input is not a terminal. *)
Lemma setraw_failure_closes_witness :
  ∃ tr,
    sshCmd no_raw "m1" Cooked =
      (Crashed "inappropriate ioctl for device",
       mkSt (tr ++ [ECurrent; ESetRaw; EConnClose 1%nat; EBodyClose])
            [] Cooked Cooked) ∧
    existsb is_terminal_event tr = false.
Proof.
  apply (setraw_failure_closes no_raw "m1" Cooked "mist.io" "tok"
           "ws://mist.io/ws/1" ["ws://mist.io/ws/1"] 1%nat
           (switching "ws://mist.io/ws/1")).
  - exact no_raw_launched.
  - exact (direct_last_dial no_raw eq_refl).
  - reflexivity.
  - reflexivity.
Defined.

(** A session that the remote side closes. *)
Lemma leaving_closes_socket_witness :
  ∃ tr,
    trace (snd (sshCmd (world ("tok", None) dial_direct None remote_close)
                  "m1" Cooked)) =
      (tr ++ [EConnClose 1%nat; EBodyClose])%list.
Proof.
  apply (leaving_closes_socket _ "m1" Cooked "mist.io" "tok"
           "ws://mist.io/ws/1" ["ws://mist.io/ws/1"] 1%nat
           (switching "ws://mist.io/ws/1")).
  - apply world_launched.
  - exact (direct_last_dial (world ("tok", None) dial_direct None remote_close)
             eq_refl).
  - vm_compute. discriminate.
Defined.

End SshRuns.
